(** * Expression-to-native compiler: the two code generators over the JIT emitter

    The repository holds the same small compiler twice: [C++_API/main.cpp]
    (class [UserFunction], built on the emitter's C++ binding) and
    [C_API/main.cpp] (class [CodegenVisitor] plus [compile_and_run], built on
    the emitter's C interface).  Both walk an [ExprAST] with a visitor whose
    only mutable field is [current_result].

    Values of type [jit_float64] are IEEE 754 binary64 numbers; they are
    modelled by Rocq's primitive [float], whose operations are the binary64
    ones. *)

From Stdlib Require Import String List Bool Arith Lia Permutation.
From Stdlib Require Import Floats.PrimFloat Floats.FloatClass.
Import ListNotations.

Set Implicit Arguments.

(** ** AST nodes *)

Definition jit_float64 := float.

Module BinaryOperator.
Inductive t := Plus | Minus | Mult | Div.
End BinaryOperator.

Module UnaryOperator.
Inductive t :=
  Acos | Asin | Atan | Cos | Cosh | Exp | Log10 | Sin | Sinh | Sqrt | Tan | Tanh.
End UnaryOperator.

(** [lhs], [rhs] and [arg] are owned children ([std::unique_ptr]).  The C
    variant stores the identifier by value.  The C++ variant stores a
    reference to the string given to the constructor ([ExprAST_ref] below);
    for it a tree of this type is what a visit reads through the references
    while the strings they refer to are alive ([read_tree]). *)
Inductive ExprAST :=
| NumberExprAST (value : jit_float64)
| IdentifierExprAST (identifier : string)
| BinaryExprAST (op : BinaryOperator.t) (lhs rhs : ExprAST)
| UnaryExprAST (op : UnaryOperator.t) (arg : ExprAST).

(** Helper constructors of the source. *)
Definition Number (val : float) : ExprAST := NumberExprAST val.
Definition Identifier (identifier : string) : ExprAST := IdentifierExprAST identifier.
Definition Mult (lhs rhs : ExprAST) : ExprAST := BinaryExprAST BinaryOperator.Mult lhs rhs.
Definition Add (lhs rhs : ExprAST) : ExprAST := BinaryExprAST BinaryOperator.Plus lhs rhs.

(** The tree [main] of the C variant builds; its identifier nodes own their
    names.  The [main] of the C++ variant builds the same shape over
    references to strings it does not own ([main_ast_ref] below). *)
Definition main_ast : ExprAST :=
  Add (Mult (Number 1) (Number 2)) (Mult (Identifier "y") (Identifier "x")).

(** Names referenced by a tree, in traversal order. *)
Fixpoint identifiers_of (e : ExprAST) : list string :=
  match e with
  | NumberExprAST _ => []
  | IdentifierExprAST id => [id]
  | BinaryExprAST _ lhs rhs => identifiers_of lhs ++ identifiers_of rhs
  | UnaryExprAST _ arg => identifiers_of arg
  end.

(** ** The code emitter *)

Module Jit.

(** Modelled from the spec: the code-emission backend (the JIT library behind
    [jit/jit.h] and [jit/jit-plus.h]) is not part of the sources.  The model
    covers the seven capabilities the generators consume: create a function
    for a signature, make a float64 constant, read a positional parameter,
    emit a binary or unary primitive over value handles, set the return
    value, finalize, and invoke with a positional argument vector.  A function
    body is the list of emitted instructions; a value handle is a constant, a
    parameter slot, the destination of an instruction, or null.  The emitter
    trusts its caller: neither the parameter index nor the operands are
    checked when an instruction is emitted. *)
Inductive jit_type_t := jit_type_void | jit_type_int | jit_type_float32 | jit_type_float64.

Inductive jit_abi_t := jit_abi_cdecl | jit_abi_vararg | jit_abi_stdcall | jit_abi_fastcall.

Record jit_signature := {
  sig_abi : jit_abi_t;
  sig_return : jit_type_t;
  sig_params : list jit_type_t
}.

Definition jit_type_create_signature (abi : jit_abi_t) (return_type : jit_type_t)
    (params : list jit_type_t) (num_params : nat) : jit_signature :=
  {| sig_abi := abi; sig_return := return_type; sig_params := firstn num_params params |}.

Definition jit_type_num_params (s : jit_signature) : nat := length (sig_params s).

Inductive jit_value_t :=
| jit_null
| jit_constant (c : jit_float64)
| jit_param (i : nat)
| jit_temp (n : nat).

Inductive binop := op_add | op_sub | op_mul | op_div.

Inductive unop :=
  op_acos | op_asin | op_atan | op_cos | op_cosh | op_exp | op_log10
| op_sin | op_sinh | op_sqrt | op_tan | op_tanh.

Inductive jit_insn :=
| insn_binary (op : binop) (dest : nat) (value1 value2 : jit_value_t)
| insn_unary (op : unop) (dest : nat) (value1 : jit_value_t)
| insn_ret (value : jit_value_t).

Record jit_function_t := {
  signature : jit_signature;
  insns : list jit_insn;
  is_compiled : bool
}.

Definition jit_function_create (sig : jit_signature) : jit_function_t :=
  {| signature := sig; insns := []; is_compiled := false |}.

Definition append_insn (i : jit_insn) (func : jit_function_t) : jit_function_t :=
  {| signature := signature func; insns := insns func ++ [i]; is_compiled := is_compiled func |}.

Definition emit_binary (op : binop) (func : jit_function_t) (value1 value2 : jit_value_t)
    : jit_value_t * jit_function_t :=
  let dest := length (insns func) in
  (jit_temp dest, append_insn (insn_binary op dest value1 value2) func).

Definition emit_unary (op : unop) (func : jit_function_t) (value1 : jit_value_t)
    : jit_value_t * jit_function_t :=
  let dest := length (insns func) in
  (jit_temp dest, append_insn (insn_unary op dest value1) func).

Definition jit_insn_add := emit_binary op_add.
Definition jit_insn_sub := emit_binary op_sub.
Definition jit_insn_mul := emit_binary op_mul.
Definition jit_insn_div := emit_binary op_div.

Definition jit_insn_acos := emit_unary op_acos.
Definition jit_insn_asin := emit_unary op_asin.
Definition jit_insn_atan := emit_unary op_atan.
Definition jit_insn_cos := emit_unary op_cos.
Definition jit_insn_cosh := emit_unary op_cosh.
Definition jit_insn_exp := emit_unary op_exp.
Definition jit_insn_log10 := emit_unary op_log10.
Definition jit_insn_sin := emit_unary op_sin.
Definition jit_insn_sinh := emit_unary op_sinh.
Definition jit_insn_sqrt := emit_unary op_sqrt.
Definition jit_insn_tan := emit_unary op_tan.
Definition jit_insn_tanh := emit_unary op_tanh.

Definition jit_value_create_float64_constant (func : jit_function_t) (type : jit_type_t)
    (const_value : jit_float64) : jit_value_t :=
  jit_constant const_value.

Definition jit_value_get_param (func : jit_function_t) (param : nat) : jit_value_t :=
  jit_param param.

Definition jit_insn_return (func : jit_function_t) (value : jit_value_t) : jit_function_t :=
  append_insn (insn_ret value) func.

Definition jit_function_compile (func : jit_function_t) : jit_function_t :=
  {| signature := signature func; insns := insns func; is_compiled := true |}.

(** *** Invocation

    The destinations of instructions live in the native frame of the running
    invocation.  A [frame] gives the content of every destination slot; on
    entry it holds whatever an earlier invocation left there. *)
Definition frame := nat -> jit_float64.

Definition frame_set (fr : frame) (dest : nat) (x : jit_float64) : frame :=
  fun n => if Nat.eqb n dest then x else fr n.

(** Reading a handle.  A null handle and a parameter slot outside the
    argument vector have no defined content. *)
Definition read (args : list jit_float64) (fr : frame) (v : jit_value_t) : option jit_float64 :=
  match v with
  | jit_null => None
  | jit_constant c => Some c
  | jit_param i => nth_error args i
  | jit_temp n => Some (fr n)
  end.

Inductive run_result :=
| Next (fr : frame)
| Return (r : jit_float64) (fr : frame)
| Fault (fr : frame).

Definition binop_sem (op : binop) (x y : jit_float64) : jit_float64 :=
  match op with
  | op_add => PrimFloat.add x y
  | op_sub => PrimFloat.sub x y
  | op_mul => PrimFloat.mul x y
  | op_div => PrimFloat.div x y
  end.

Section Run.

(** The math library behind the twelve unary primitives. *)
Variable libm : unop -> jit_float64 -> jit_float64.

Definition step (i : jit_insn) (args : list jit_float64) (fr : frame) : run_result :=
  match i with
  | insn_binary op dest value1 value2 =>
      match read args fr value1, read args fr value2 with
      | Some x, Some y => Next (frame_set fr dest (binop_sem op x y))
      | _, _ => Fault fr
      end
  | insn_unary op dest value1 =>
      match read args fr value1 with
      | Some x => Next (frame_set fr dest (libm op x))
      | None => Fault fr
      end
  | insn_ret value =>
      match read args fr value with
      | Some r => Return r fr
      | None => Fault fr
      end
  end.

Fixpoint run (code : list jit_insn) (args : list jit_float64) (fr : frame) : run_result :=
  match code with
  | [] => Next fr
  | i :: rest =>
      match step i args fr with
      | Next fr' => run rest args fr'
      | r => r
      end
  end.

(** [jit_function_apply]: the float64 written to the result cell, if any, and
    the frame left behind.  A function that was not finalized, a body that
    ends without a return and a faulting read give no result. *)
Definition jit_function_apply (func : jit_function_t) (args : list jit_float64) (fr : frame)
    : option jit_float64 * frame :=
  if is_compiled func then
    match run (insns func) args fr with
    | Return r fr' => (Some r, fr')
    | Next fr' => (None, fr')
    | Fault fr' => (None, fr')
    end
  else (None, fr).

End Run.

End Jit.

Import Jit.

(** ** C++_API/main.cpp: [UserFunction] *)

Module CxxAPI.

(** The object: the state of the base class [jit_function] ([func]) and the
    three fields of the source. *)
Record UserFunction := {
  func : jit_function_t;
  ast : ExprAST;
  identifiers : list string;
  current_result : jit_value_t
}.

Definition set_func (f : jit_function_t) (this : UserFunction) : UserFunction :=
  {| func := f; ast := ast this; identifiers := identifiers this;
     current_result := current_result this |}.

Definition set_current_result (v : jit_value_t) (this : UserFunction) : UserFunction :=
  {| func := func this; ast := ast this; identifiers := identifiers this;
     current_result := v |}.

(** Methods inherited from the C++ binding: each forwards to the C entry
    point on [func]. *)
Definition lift_emit (emit : jit_function_t -> jit_value_t * jit_function_t)
    (this : UserFunction) : jit_value_t * UserFunction :=
  let '(v, f) := emit (func this) in (v, set_func f this).

Definition insn_add (this : UserFunction) (v1 v2 : jit_value_t) :=
  lift_emit (fun f => jit_insn_add f v1 v2) this.
Definition insn_sub (this : UserFunction) (v1 v2 : jit_value_t) :=
  lift_emit (fun f => jit_insn_sub f v1 v2) this.
Definition insn_mul (this : UserFunction) (v1 v2 : jit_value_t) :=
  lift_emit (fun f => jit_insn_mul f v1 v2) this.
Definition insn_div (this : UserFunction) (v1 v2 : jit_value_t) :=
  lift_emit (fun f => jit_insn_div f v1 v2) this.

Definition insn_acos (this : UserFunction) (v : jit_value_t) :=
  lift_emit (fun f => jit_insn_acos f v) this.
Definition insn_asin (this : UserFunction) (v : jit_value_t) :=
  lift_emit (fun f => jit_insn_asin f v) this.
Definition insn_atan (this : UserFunction) (v : jit_value_t) :=
  lift_emit (fun f => jit_insn_atan f v) this.
Definition insn_cos (this : UserFunction) (v : jit_value_t) :=
  lift_emit (fun f => jit_insn_cos f v) this.
Definition insn_cosh (this : UserFunction) (v : jit_value_t) :=
  lift_emit (fun f => jit_insn_cosh f v) this.
Definition insn_exp (this : UserFunction) (v : jit_value_t) :=
  lift_emit (fun f => jit_insn_exp f v) this.
Definition insn_log10 (this : UserFunction) (v : jit_value_t) :=
  lift_emit (fun f => jit_insn_log10 f v) this.
Definition insn_sin (this : UserFunction) (v : jit_value_t) :=
  lift_emit (fun f => jit_insn_sin f v) this.
Definition insn_sinh (this : UserFunction) (v : jit_value_t) :=
  lift_emit (fun f => jit_insn_sinh f v) this.
Definition insn_sqrt (this : UserFunction) (v : jit_value_t) :=
  lift_emit (fun f => jit_insn_sqrt f v) this.
Definition insn_tan (this : UserFunction) (v : jit_value_t) :=
  lift_emit (fun f => jit_insn_tan f v) this.
Definition insn_tanh (this : UserFunction) (v : jit_value_t) :=
  lift_emit (fun f => jit_insn_tanh f v) this.

Definition new_constant (this : UserFunction) (value : jit_float64) (type : jit_type_t)
    : jit_value_t :=
  jit_value_create_float64_constant (func this) type value.

Definition get_param (this : UserFunction) (param : nat) : jit_value_t :=
  jit_value_get_param (func this) param.

Definition insn_return (this : UserFunction) (value : jit_value_t) : UserFunction :=
  set_func (jit_insn_return (func this) value) this.

(** [std::find] over the vector, as the position of the iterator it returns:
    the first index holding [x], or the size of the vector ([cend]). *)
Fixpoint find (v : list string) (x : string) : nat :=
  match v with
  | [] => 0
  | y :: rest => if String.eqb y x then 0 else S (find rest x)
  end.

(** [std::distance(first, last)] on positions. *)
Definition distance (first last : nat) : nat := last - first.

Definition cbegin (v : list string) : nat := 0.
Definition cend (v : list string) : nat := length v.

Definition create_signature (this : UserFunction) : jit_signature :=
  let params := repeat jit_type_float64 (length (identifiers this)) in
  jit_type_create_signature jit_abi_cdecl jit_type_float64 params (length params).

Definition visit_number_node (value : jit_float64) (this : UserFunction) : UserFunction :=
  set_current_result (new_constant this value jit_type_float64) this.

Definition visit_identifier_node (identifier : string) (this : UserFunction) : UserFunction :=
  let it := find (identifiers this) identifier in
  set_current_result (get_param this (distance (cbegin (identifiers this)) it)) this.

Definition visit_binary_node (accept : ExprAST -> UserFunction -> UserFunction)
    (op : BinaryOperator.t) (lhs rhs : ExprAST) (this : UserFunction) : UserFunction :=
  let this := accept lhs this in
  let tmp_left := current_result this in
  let this := accept rhs this in
  let tmp_right := current_result this in
  let '(v, this) :=
    match op with
    | BinaryOperator.Plus => insn_add this tmp_left tmp_right
    | BinaryOperator.Mult => insn_mul this tmp_left tmp_right
    | BinaryOperator.Minus => insn_sub this tmp_left tmp_right
    | BinaryOperator.Div => insn_div this tmp_left tmp_right
    end in
  set_current_result v this.

Definition visit_unary_node (accept : ExprAST -> UserFunction -> UserFunction)
    (op : UnaryOperator.t) (arg : ExprAST) (this : UserFunction) : UserFunction :=
  let this := accept arg this in
  let tmp := current_result this in
  let '(v, this) :=
    match op with
    | UnaryOperator.Acos => insn_acos this tmp
    | UnaryOperator.Asin => insn_asin this tmp
    | UnaryOperator.Atan => insn_atan this tmp
    | UnaryOperator.Cos => insn_cos this tmp
    | UnaryOperator.Cosh => insn_cosh this tmp
    | UnaryOperator.Exp => insn_exp this tmp
    | UnaryOperator.Log10 => insn_log10 this tmp
    | UnaryOperator.Sin => insn_sin this tmp
    | UnaryOperator.Sinh => insn_sinh this tmp
    | UnaryOperator.Sqrt => insn_sqrt this tmp
    | UnaryOperator.Tan => insn_tan this tmp
    | UnaryOperator.Tanh => insn_tanh this tmp
    end in
  set_current_result v this.

(** [node->accept(this)]: each node calls the visit method of its own kind. *)
Fixpoint accept (node : ExprAST) (this : UserFunction) : UserFunction :=
  match node with
  | NumberExprAST value => visit_number_node value this
  | IdentifierExprAST identifier => visit_identifier_node identifier this
  | BinaryExprAST op lhs rhs => visit_binary_node accept op lhs rhs this
  | UnaryExprAST op arg => visit_unary_node accept op arg this
  end.

Definition build (this : UserFunction) : UserFunction :=
  let this := accept (ast this) this in
  insn_return this (current_result this).

(** Modelled from the spec: the base class [jit_function] is not part of the
    sources.  The constructor calls its [create()]; following the spec's
    top-level compile operation, the base class creates the function for the
    signature given by [create_signature], runs [build] and finalizes the
    body into an invocable unit.  [current_result] starts as the null handle
    of a default-constructed [jit_value]. *)
Definition create (this : UserFunction) : UserFunction :=
  let this := set_func (jit_function_create (create_signature this)) this in
  let this := build this in
  set_func (jit_function_compile (func this)) this.

Definition UserFunction_new (ast : ExprAST) (identifiers : list string) : UserFunction :=
  create {| func := jit_function_create (jit_type_create_signature jit_abi_cdecl jit_type_void [] 0);
            ast := ast; identifiers := identifiers; current_result := jit_null |}.

(** [call]: the argument vector is passed by addresses to [apply]; the cell
    [result] is returned. *)
Definition call (libm : unop -> jit_float64 -> jit_float64) (this : UserFunction)
    (arguments : list jit_float64) (fr : frame) : option jit_float64 * frame :=
  jit_function_apply libm (func this) arguments fr.

End CxxAPI.

(** ** C++_API/main.cpp: identifier nodes over references, and [main] *)

(** A [std::string] object, named by the place where it lives, and the
    string objects alive at a point of the program with their content. *)
Definition address := nat.

Definition objects := list (address * string).

Fixpoint content (alive : objects) (a : address) : option string :=
  match alive with
  | [] => None
  | (a', s) :: rest => if Nat.eqb a' a then Some s else content rest a
  end.

(** The nodes as the C++ file declares them: [IdentifierExprAST] keeps
    [const std::string &identifier], a reference to a string owned by
    whoever called the constructor; the other nodes own their fields. *)
Inductive ExprAST_ref :=
| NumberExprAST_ref (value : jit_float64)
| IdentifierExprAST_ref (identifier : address)
| BinaryExprAST_ref (op : BinaryOperator.t) (lhs rhs : ExprAST_ref)
| UnaryExprAST_ref (op : UnaryOperator.t) (arg : ExprAST_ref).

(** [Identifier(const std::string &identifier)] passes its reference on to
    the node. *)
Definition Number_ref (val : float) : ExprAST_ref := NumberExprAST_ref val.
Definition Identifier_ref (identifier : address) : ExprAST_ref :=
  IdentifierExprAST_ref identifier.
Definition Mult_ref (lhs rhs : ExprAST_ref) : ExprAST_ref :=
  BinaryExprAST_ref BinaryOperator.Mult lhs rhs.
Definition Add_ref (lhs rhs : ExprAST_ref) : ExprAST_ref :=
  BinaryExprAST_ref BinaryOperator.Plus lhs rhs.

(** What a visit reads of a tree: [node->identifier] goes through the
    reference.  A reference to an object that is no longer alive has no
    defined content, and neither has a tree that holds one. *)
Fixpoint read_tree (alive : objects) (t : ExprAST_ref) : option ExprAST :=
  match t with
  | NumberExprAST_ref value => Some (NumberExprAST value)
  | IdentifierExprAST_ref identifier =>
      match content alive identifier with
      | Some name => Some (IdentifierExprAST name)
      | None => None
      end
  | BinaryExprAST_ref op lhs rhs =>
      match read_tree alive lhs, read_tree alive rhs with
      | Some l, Some r => Some (BinaryExprAST op l r)
      | _, _ => None
      end
  | UnaryExprAST_ref op arg =>
      match read_tree alive arg with
      | Some a => Some (UnaryExprAST op a)
      | None => None
      end
  end.

(** The end of a statement destroys the temporaries it created. *)
Definition end_of_statement (temporaries alive : objects) : objects :=
  filter (fun o => negb (existsb (Nat.eqb (fst o)) (map fst temporaries))) alive.

(** The first statement of [main]: the literals "y" and "x" become
    temporary strings for the two calls of [Identifier], and the nodes keep
    references to them. *)
Definition temporary_y : address := 0.
Definition temporary_x : address := 1.

Definition main_temporaries : objects :=
  [(temporary_y, "y"%string); (temporary_x, "x"%string)].

Definition main_ast_ref : ExprAST_ref :=
  Add_ref (Mult_ref (Number_ref 1) (Number_ref 2))
          (Mult_ref (Identifier_ref temporary_y) (Identifier_ref temporary_x)).

(** [main] of the C++ variant, statement by statement: the tree is built
    from temporaries, the statement ends, the binding and the function are
    made, the function is called on (3, 5).  The function is built after the
    first statement, and no string is created or destroyed while the tree is
    visited, so the visit reads the tree against the objects alive after that
    statement.  The result is [None] when the program reads an object that is
    no longer alive; otherwise it is what [call] leaves in the printed cell. *)
Definition cxx_main (libm : unop -> jit_float64 -> jit_float64) (fr : frame)
    : option (option jit_float64) :=
  let alive := main_temporaries in
  let ast := main_ast_ref in
  let alive := end_of_statement main_temporaries alive in
  let identifiers := ["x"%string; "y"%string] in
  match read_tree alive ast with
  | Some tree =>
      let f := CxxAPI.UserFunction_new tree identifiers in
      let args := [3%float; 5%float] in
      Some (fst (CxxAPI.call libm f args fr))
  | None => None
  end.

(** ** C_API/main.cpp: [CodegenVisitor] and [compile_and_run] *)

Module CAPI.

(** [std::unordered_map<std::string, jit_float64>], as the sequence of its
    entries in iteration order.  The container keeps one entry per key; the
    order in which it iterates is not specified. *)
Definition unordered_map := list (string * jit_float64).

Definition size (m : unordered_map) : nat := length m.

(** Iterators are positions in the iteration order; [end()] is the position
    past the last entry. *)
Definition begin (m : unordered_map) : nat := 0.
Definition end_ (m : unordered_map) : nat := length m.

Fixpoint find (m : unordered_map) (key : string) : nat :=
  match m with
  | [] => 0
  | (k, _) :: rest => if String.eqb k key then 0 else S (find rest key)
  end.

Definition distance (first last : nat) : nat := last - first.

(** The copy constructor of the container.  A copy holds the entries of the
    original; the language does not fix the order in which the copy
    iterates, so the constructor is a parameter of the model. *)
Record copy_constructor := {
  copy_of :> unordered_map -> unordered_map;
  copy_of_entries : forall m, Permutation m (copy_of m)
}.

(** A library whose copies iterate as the original does. *)
Definition copy_same_order : copy_constructor :=
  {| copy_of := fun m => m; copy_of_entries := @Permutation_refl _ |}.

(** A run of the generator either goes on or is stopped by a failed
    [assert]. *)
Inductive outcome (A : Type) :=
| Done (a : A)
| AssertionFailed.
Arguments Done {A} a.
Arguments AssertionFailed {A}.

Definition bind {A B : Type} (c : outcome A) (k : A -> outcome B) : outcome B :=
  match c with
  | Done a => k a
  | AssertionFailed => AssertionFailed
  end.

Notation "x <- c ;; k" := (bind c (fun x => k))
  (at level 61, c at next level, right associativity).

Definition assert (condition : bool) : outcome unit :=
  if condition then Done tt else AssertionFailed.

(** [function] is a handle on the function under construction, which
    [compile_and_run] also holds: the visitor's [function] field is the one
    shared body, read back by the caller once the visitor is done.
    [identifier_map] is a member by value: the constructor copies the
    caller's map into it. *)
Record CodegenVisitor := {
  function : jit_function_t;
  identifier_map : unordered_map;
  current_result : jit_value_t
}.

Definition CodegenVisitor_new (copy : copy_constructor) (function : jit_function_t)
    (identifier_map : unordered_map) : CodegenVisitor :=
  {| function := function; identifier_map := copy identifier_map;
     current_result := jit_null |}.

Definition set_function (f : jit_function_t) (this : CodegenVisitor) : CodegenVisitor :=
  {| function := f; identifier_map := identifier_map this;
     current_result := current_result this |}.

Definition set_current_result (v : jit_value_t) (this : CodegenVisitor) : CodegenVisitor :=
  {| function := function this; identifier_map := identifier_map this;
     current_result := v |}.

(** [current_result = jit_insn_xxx(function, ...)]: the instruction goes
    into the shared body and its destination becomes the current result. *)
Definition emit_into (emit : jit_function_t -> jit_value_t * jit_function_t)
    (this : CodegenVisitor) : CodegenVisitor :=
  let '(v, f) := emit (function this) in
  set_current_result v (set_function f this).

Definition visit_number_node (value : jit_float64) (this : CodegenVisitor)
    : outcome CodegenVisitor :=
  Done (set_current_result
          (jit_value_create_float64_constant (function this) jit_type_float64 value) this).

Definition visit_identifier_node (identifier : string) (this : CodegenVisitor)
    : outcome CodegenVisitor :=
  let m := identifier_map this in
  _ <- assert (negb (Nat.eqb (find m identifier) (end_ m))) ;;
  let arg_index := distance (begin m) (find m identifier) in
  Done (set_current_result (jit_value_get_param (function this) arg_index) this).

Definition visit_binary_node (accept : ExprAST -> CodegenVisitor -> outcome CodegenVisitor)
    (op : BinaryOperator.t) (lhs rhs : ExprAST) (this : CodegenVisitor)
    : outcome CodegenVisitor :=
  this <- accept lhs this ;;
  let tmp_left := current_result this in
  this <- accept rhs this ;;
  let tmp_right := current_result this in
  Done match op with
       | BinaryOperator.Plus => emit_into (fun f => jit_insn_add f tmp_left tmp_right) this
       | BinaryOperator.Mult => emit_into (fun f => jit_insn_mul f tmp_left tmp_right) this
       | BinaryOperator.Minus => emit_into (fun f => jit_insn_sub f tmp_left tmp_right) this
       | BinaryOperator.Div => emit_into (fun f => jit_insn_div f tmp_left tmp_right) this
       end.

Definition visit_unary_node (accept : ExprAST -> CodegenVisitor -> outcome CodegenVisitor)
    (op : UnaryOperator.t) (arg : ExprAST) (this : CodegenVisitor)
    : outcome CodegenVisitor :=
  this <- accept arg this ;;
  let tmp := current_result this in
  Done match op with
       | UnaryOperator.Acos => emit_into (fun f => jit_insn_acos f tmp) this
       | UnaryOperator.Asin => emit_into (fun f => jit_insn_asin f tmp) this
       | UnaryOperator.Atan => emit_into (fun f => jit_insn_atan f tmp) this
       | UnaryOperator.Cos => emit_into (fun f => jit_insn_cos f tmp) this
       | UnaryOperator.Cosh => emit_into (fun f => jit_insn_cosh f tmp) this
       | UnaryOperator.Exp => emit_into (fun f => jit_insn_exp f tmp) this
       | UnaryOperator.Log10 => emit_into (fun f => jit_insn_log10 f tmp) this
       | UnaryOperator.Sin => emit_into (fun f => jit_insn_sin f tmp) this
       | UnaryOperator.Sinh => emit_into (fun f => jit_insn_sinh f tmp) this
       | UnaryOperator.Sqrt => emit_into (fun f => jit_insn_sqrt f tmp) this
       | UnaryOperator.Tan => emit_into (fun f => jit_insn_tan f tmp) this
       | UnaryOperator.Tanh => emit_into (fun f => jit_insn_tanh f tmp) this
       end.

Fixpoint accept (node : ExprAST) (this : CodegenVisitor) : outcome CodegenVisitor :=
  match node with
  | NumberExprAST value => visit_number_node value this
  | IdentifierExprAST identifier => visit_identifier_node identifier this
  | BinaryExprAST op lhs rhs => visit_binary_node accept op lhs rhs this
  | UnaryExprAST op arg => visit_unary_node accept op arg this
  end.

Definition compile (ast : ExprAST) (this : CodegenVisitor) : outcome CodegenVisitor :=
  this <- accept ast this ;;
  Done (set_function (jit_insn_return (function this) (current_result this)) this).

(** [compile_and_run] prints the result; the model returns the finalized
    function together with the content of the printed cell.  The argument
    vector is packed from the caller's map in its iteration order.  Creation
    and destruction of the context carry no data of their own. *)
Definition compile_and_run (copy : copy_constructor)
    (libm : unop -> jit_float64 -> jit_float64) (ast : ExprAST)
    (identifier_map : unordered_map) (fr : frame)
    : outcome (jit_function_t * option jit_float64) :=
  let params := repeat jit_type_float64 (size identifier_map) in
  let signature :=
    jit_type_create_signature jit_abi_cdecl jit_type_float64 params (length params) in
  let function0 := jit_function_create signature in
  let cv := CodegenVisitor_new copy function0 identifier_map in
  cv <- compile ast cv ;;
  let function1 := jit_function_compile (function cv) in
  let args := map snd identifier_map in
  Done (function1, fst (jit_function_apply libm function1 args fr)).

(** The map of [main]. *)
Definition main_args : unordered_map := [("x"%string, 6%float); ("y"%string, 2%float)].

End CAPI.

(** ** The generator with explicit results, and the meaning of a tree *)

(** The operator tables: each operator and the primitive it stands for. *)
Definition binary_primitive (op : BinaryOperator.t) : binop :=
  match op with
  | BinaryOperator.Plus => op_add
  | BinaryOperator.Minus => op_sub
  | BinaryOperator.Mult => op_mul
  | BinaryOperator.Div => op_div
  end.

Definition unary_primitive (op : UnaryOperator.t) : unop :=
  match op with
  | UnaryOperator.Acos => op_acos
  | UnaryOperator.Asin => op_asin
  | UnaryOperator.Atan => op_atan
  | UnaryOperator.Cos => op_cos
  | UnaryOperator.Cosh => op_cosh
  | UnaryOperator.Exp => op_exp
  | UnaryOperator.Log10 => op_log10
  | UnaryOperator.Sin => op_sin
  | UnaryOperator.Sinh => op_sinh
  | UnaryOperator.Sqrt => op_sqrt
  | UnaryOperator.Tan => op_tan
  | UnaryOperator.Tanh => op_tanh
  end.

Section Explicit.

(** The binding resolver: the slot of a name, if it has one. *)
Variable slot_of : string -> option nat.

(** The design the spec proposes in place of the [current_result] field:
    each generation step returns its value handle directly.  Number: a
    constant handle.  Identifier: resolve the slot, read that parameter.
    Binary: left child (handle L), right child (handle R), then the primitive
    over (L, R).  Unary: the operand (handle V), then the primitive over V. *)
Fixpoint generate_explicit (e : ExprAST) (f : jit_function_t)
    : option (jit_value_t * jit_function_t) :=
  match e with
  | NumberExprAST value =>
      Some (jit_value_create_float64_constant f jit_type_float64 value, f)
  | IdentifierExprAST name =>
      match slot_of name with
      | Some slot => Some (jit_value_get_param f slot, f)
      | None => None
      end
  | BinaryExprAST op left_child right_child =>
      match generate_explicit left_child f with
      | Some (L, f1) =>
          match generate_explicit right_child f1 with
          | Some (R, f2) => Some (emit_binary (binary_primitive op) f2 L R)
          | None => None
          end
      | None => None
      end
  | UnaryExprAST op operand =>
      match generate_explicit operand f with
      | Some (V, f1) => Some (emit_unary (unary_primitive op) f1 V)
      | None => None
      end
  end.

(** The handles of all nodes of a tree, children before parents. *)
Fixpoint handles_explicit (e : ExprAST) (f : jit_function_t) : list jit_value_t :=
  match e with
  | NumberExprAST _ | IdentifierExprAST _ =>
      match generate_explicit e f with
      | Some (v, _) => [v]
      | None => []
      end
  | BinaryExprAST op left_child right_child =>
      handles_explicit left_child f ++
      match generate_explicit left_child f with
      | Some (_, f1) =>
          handles_explicit right_child f1 ++
          match generate_explicit e f with
          | Some (v, _) => [v]
          | None => []
          end
      | None => []
      end
  | UnaryExprAST op operand =>
      handles_explicit operand f ++
      match generate_explicit e f with
      | Some (v, _) => [v]
      | None => []
      end
  end.

End Explicit.

Section Denote.

Variable libm : unop -> jit_float64 -> jit_float64.

(** The value each variable name stands for, if any. *)
Variable rho : string -> option jit_float64.

(** Direct arithmetic on the tree. *)
Fixpoint denote (e : ExprAST) : option jit_float64 :=
  match e with
  | NumberExprAST value => Some value
  | IdentifierExprAST name => rho name
  | BinaryExprAST op lhs rhs =>
      match denote lhs, denote rhs with
      | Some x, Some y => Some (binop_sem (binary_primitive op) x y)
      | _, _ => None
      end
  | UnaryExprAST op arg =>
      match denote arg with
      | Some x => Some (libm (unary_primitive op) x)
      | None => None
      end
  end.

End Denote.

(** The binding of the C++ variant: a name stands for the argument at the
    position [std::find] gives. *)
Definition cxx_slot (identifiers : list string) (name : string) : option nat :=
  Some (CxxAPI.distance (CxxAPI.cbegin identifiers) (CxxAPI.find identifiers name)).

Definition cxx_env (identifiers : list string) (arguments : list jit_float64)
    (name : string) : option jit_float64 :=
  nth_error arguments (CxxAPI.find identifiers name).

(** The binding of the C variant: a name has a slot when the map has an entry
    for it, and stands for the value of that entry. *)
Definition c_slot (m : CAPI.unordered_map) (name : string) : option nat :=
  if Nat.eqb (CAPI.find m name) (CAPI.end_ m) then None
  else Some (CAPI.distance (CAPI.begin m) (CAPI.find m name)).

Fixpoint lookup (m : CAPI.unordered_map) (name : string) : option jit_float64 :=
  match m with
  | [] => None
  | (k, v) :: rest => if String.eqb k name then Some v else lookup rest name
  end.

(** What a resolver and an argument vector make a name stand for. *)
Definition slot_env (slot_of : string -> option nat) (args : list jit_float64)
    (name : string) : option jit_float64 :=
  match slot_of name with
  | Some slot => nth_error args slot
  | None => None
  end.

(** The content of [current_result] after the visit of each node of a tree,
    children before parents. *)
Fixpoint handles_accumulated (node : ExprAST) (this : CxxAPI.UserFunction)
    : list jit_value_t :=
  match node with
  | NumberExprAST _ | IdentifierExprAST _ =>
      [CxxAPI.current_result (CxxAPI.accept node this)]
  | BinaryExprAST op lhs rhs =>
      handles_accumulated lhs this ++
      handles_accumulated rhs (CxxAPI.accept lhs this) ++
      [CxxAPI.current_result (CxxAPI.accept node this)]
  | UnaryExprAST op arg =>
      handles_accumulated arg this ++
      [CxxAPI.current_result (CxxAPI.accept node this)]
  end.

(** ** Running emitted code *)

(** A handle is in scope of a body of [n] instructions when it is not the
    destination of a later one. *)
Definition value_ok (n : nat) (v : jit_value_t) : Prop :=
  match v with
  | jit_temp k => k < n
  | _ => True
  end.

(** Two frames with the same content in the first [n] destinations. *)
Definition agree (n : nat) (fr fr' : frame) : Prop :=
  forall k, k < n -> fr' k = fr k.

(** The code of a tree, run from any frame, against direct arithmetic: it
    ends with the handle [v] holding the value of the tree and the first [n]
    destinations untouched, or it faults and the tree has no value. *)
Definition code_meets (libm : unop -> jit_float64 -> jit_float64)
    (rho : string -> option jit_float64) (e : ExprAST)
    (n : nat) (code : list jit_insn) (v : jit_value_t) (args : list jit_float64) : Prop :=
  forall fr,
    match run libm code args fr with
    | Next fr' => read args fr' v = denote libm rho e /\ agree n fr fr'
    | Return _ _ => False
    | Fault _ => denote libm rho e = None
    end.

(** The signature [create_signature] gives for a binding. *)
Definition cxx_signature (ids : list string) : jit_signature :=
  jit_type_create_signature jit_abi_cdecl jit_type_float64
    (repeat jit_type_float64 (length ids))
    (length (repeat jit_type_float64 (length ids))).

(** The signature [compile_and_run] creates. *)
Definition c_signature (m : CAPI.unordered_map) : jit_signature :=
  jit_type_create_signature jit_abi_cdecl jit_type_float64
    (repeat jit_type_float64 (CAPI.size m))
    (length (repeat jit_type_float64 (CAPI.size m))).

(** ** The shape of a body *)

(** The primitives a tree asks for, children before parents and the left
    child before the right one. *)
Fixpoint postorder (e : ExprAST) : list (binop + unop) :=
  match e with
  | NumberExprAST _ | IdentifierExprAST _ => []
  | BinaryExprAST op lhs rhs =>
      postorder lhs ++ postorder rhs ++ [inl (binary_primitive op)]
  | UnaryExprAST op arg => postorder arg ++ [inr (unary_primitive op)]
  end.

(** The primitive an instruction applies; a return applies none. *)
Definition insn_opcode (i : jit_insn) : option (binop + unop) :=
  match i with
  | insn_binary op _ _ _ => Some (inl op)
  | insn_unary op _ _ => Some (inr op)
  | insn_ret _ => None
  end.

Definition insn_operands (i : jit_insn) : list jit_value_t :=
  match i with
  | insn_binary _ _ value1 value2 => [value1; value2]
  | insn_unary _ _ value1 => [value1]
  | insn_ret value => [value]
  end.

Definition insn_dest (i : jit_insn) : option nat :=
  match i with
  | insn_binary _ dest _ _ => Some dest
  | insn_unary _ dest _ => Some dest
  | insn_ret _ => None
  end.

(** An operand the instruction at position [k] may read: a constant, a
    parameter, or the destination of an earlier instruction; never null. *)
Definition operand_ok (k : nat) (v : jit_value_t) : bool :=
  match v with
  | jit_null => false
  | jit_temp n => Nat.ltb n k
  | _ => true
  end.

(** The instruction at position [k] reads only what is there and writes
    destination [k]. *)
Definition insn_ok (k : nat) (i : jit_insn) : bool :=
  forallb (operand_ok k) (insn_operands i) &&
  match insn_dest i with
  | Some dest => Nat.eqb dest k
  | None => true
  end.

Fixpoint body_ok (k : nat) (code : list jit_insn) : bool :=
  match code with
  | [] => true
  | i :: rest => insn_ok k i && body_ok (S k) rest
  end.

(** The parameter slots a body reads. *)
Definition value_params (v : jit_value_t) : list nat :=
  match v with
  | jit_param i => [i]
  | _ => []
  end.

Definition body_params (code : list jit_insn) : list nat :=
  flat_map (fun i => flat_map value_params (insn_operands i)) code.

(** ** Frames and handles *)

Lemma agree_refl n fr : agree n fr fr.
Proof. intros k _. reflexivity. Qed.

Lemma agree_trans n m fr1 fr2 fr3 :
  n <= m -> agree n fr1 fr2 -> agree m fr2 fr3 -> agree n fr1 fr3.
Proof.
  intros Hle H12 H23 k Hk. rewrite H23 by lia. apply H12. exact Hk.
Qed.

Lemma agree_frame_set n fr fr' dest x :
  n <= dest -> agree n fr fr' -> agree n fr (frame_set fr' dest x).
Proof.
  intros Hle H k Hk. unfold frame_set.
  destruct (Nat.eqb_spec k dest) as [->|_]; [lia | apply H; exact Hk].
Qed.

Lemma read_agree args n v fr fr' :
  value_ok n v -> agree n fr fr' -> read args fr' v = read args fr v.
Proof.
  destruct v as [ | c | i | k]; simpl; intros Hv Ha; try reflexivity.
  rewrite (Ha k Hv). reflexivity.
Qed.

Lemma value_ok_mono n m v : n <= m -> value_ok n v -> value_ok m v.
Proof. destruct v; simpl; intros; try exact I; lia. Qed.

Lemma frame_set_same fr dest x : frame_set fr dest x dest = x.
Proof. unfold frame_set. rewrite Nat.eqb_refl. reflexivity. Qed.

Section RunFacts.

Variable libm : unop -> jit_float64 -> jit_float64.

Lemma run_app (a b : list jit_insn) args fr :
  run libm (a ++ b) args fr =
  match run libm a args fr with
  | Next fr' => run libm b args fr'
  | r => r
  end.
Proof.
  revert fr. induction a as [ | i a IH]; intro fr; simpl.
  - reflexivity.
  - destruct (step libm i args fr); [apply IH | reflexivity | reflexivity].
Qed.

Variable slot_of : string -> option nat.

Lemma generate_explicit_sound (args : list jit_float64) (e : ExprAST) :
  forall f v f',
    generate_explicit slot_of e f = Some (v, f') ->
    exists code,
      insns f' = insns f ++ code /\
      signature f' = signature f /\
      is_compiled f' = is_compiled f /\
      value_ok (length (insns f')) v /\
      code_meets libm (slot_env slot_of args) e (length (insns f)) code v args.
Proof.
  induction e as [value | name | op lhs IHl rhs IHr | op arg IHa]; intros f v f' H; simpl in H.
  - inversion H; subst. exists []. rewrite app_nil_r.
    split; [reflexivity | ]. split; [reflexivity | ]. split; [reflexivity | ].
    split; [exact I | ]. intro fr. simpl. split; [reflexivity | apply agree_refl].
  - destruct (slot_of name) as [slot | ] eqn:Hs; [ | discriminate].
    inversion H; subst. exists []. rewrite app_nil_r.
    split; [reflexivity | ]. split; [reflexivity | ]. split; [reflexivity | ].
    split; [exact I | ]. intro fr. simpl. split; [ | apply agree_refl].
    unfold slot_env. rewrite Hs. reflexivity.
  - destruct (generate_explicit slot_of lhs f) as [[L f1] | ] eqn:Hl; [ | discriminate].
    destruct (generate_explicit slot_of rhs f1) as [[R f2] | ] eqn:Hr; [ | discriminate].
    destruct (IHl _ _ _ Hl) as (cl & El & Sl & Cl & Vl & Ml).
    destruct (IHr _ _ _ Hr) as (cr & Er & Sr & Cr & Vr & Mr).
    unfold emit_binary in H. inversion H; subst v f'; clear H. simpl.
    exists (cl ++ cr ++ [insn_binary (binary_primitive op) (length (insns f2)) L R]).
    assert (Hlen1 : length (insns f) <= length (insns f1))
      by (rewrite El, length_app; lia).
    assert (Hlen2 : length (insns f1) <= length (insns f2))
      by (rewrite Er, length_app; lia).
    split; [rewrite Er, El, <- !app_assoc; reflexivity | ].
    split; [congruence | ]. split; [congruence | ].
    split; [rewrite length_app; simpl; lia | ].
    intro fr. rewrite run_app. specialize (Ml fr).
    destruct (run libm cl args fr) as [fr1 | | ]; [ | exact Ml | simpl; rewrite Ml; reflexivity].
    destruct Ml as [RL A1]. rewrite run_app. specialize (Mr fr1).
    destruct (run libm cr args fr1) as [fr2 | | ];
      [ | exact Mr | simpl; rewrite Mr; destruct (denote libm _ lhs); reflexivity].
    destruct Mr as [RR A2]. simpl.
    rewrite (read_agree args L Vl A2), RL, RR.
    destruct (denote libm _ lhs) as [x | ]; [ | reflexivity].
    destruct (denote libm _ rhs) as [y | ]; [ | reflexivity].
    split.
    + simpl. rewrite frame_set_same. reflexivity.
    + apply agree_frame_set; [lia | ].
      apply (agree_trans Hlen1 A1 A2).
  - destruct (generate_explicit slot_of arg f) as [[V f1] | ] eqn:Ha; [ | discriminate].
    destruct (IHa _ _ _ Ha) as (ca & Ea & Sa & Ca & Va & Ma).
    unfold emit_unary in H. inversion H; subst v f'; clear H. simpl.
    exists (ca ++ [insn_unary (unary_primitive op) (length (insns f1)) V]).
    assert (Hlen1 : length (insns f) <= length (insns f1))
      by (rewrite Ea, length_app; lia).
    split; [rewrite Ea, <- app_assoc; reflexivity | ].
    split; [congruence | ]. split; [congruence | ].
    split; [rewrite length_app; simpl; lia | ].
    intro fr. rewrite run_app. specialize (Ma fr).
    destruct (run libm ca args fr) as [fr1 | | ]; [ | exact Ma | simpl; rewrite Ma; reflexivity].
    destruct Ma as [RV A1]. simpl. rewrite RV.
    destruct (denote libm _ arg) as [x | ]; [ | reflexivity].
    split.
    + simpl. rewrite frame_set_same. reflexivity.
    + apply agree_frame_set; [lia | exact A1].
Qed.

(** A finalized body made of the code of a tree and the return of its handle
    computes what direct arithmetic gives. *)
Lemma apply_generated (args : list jit_float64) (e : ExprAST) f v f' fr :
  generate_explicit slot_of e f = Some (v, f') ->
  insns f = [] ->
  fst (jit_function_apply libm (jit_function_compile (jit_insn_return f' v)) args fr)
  = denote libm (slot_env slot_of args) e.
Proof.
  intros H Hnil.
  destruct (generate_explicit_sound args e _ H) as (code & E & _ & _ & _ & M).
  unfold jit_function_apply, jit_function_compile, jit_insn_return, append_insn. simpl.
  rewrite E, Hnil. simpl. rewrite run_app. specialize (M fr).
  destruct (run libm code args fr) as [fr1 | | ].
  - destruct M as [RV _]. simpl. rewrite RV.
    destruct (denote libm _ e); reflexivity.
  - contradiction.
  - rewrite M. reflexivity.
Qed.

End RunFacts.

(** ** Facts on direct arithmetic *)

Section DenoteFacts.

Variable libm : unop -> jit_float64 -> jit_float64.

Lemma denote_ext (rho rho' : string -> option jit_float64) (e : ExprAST) :
  (forall name, In name (identifiers_of e) -> rho name = rho' name) ->
  denote libm rho e = denote libm rho' e.
Proof.
  induction e as [value | name | op lhs IHl rhs IHr | op arg IHa]; simpl; intro H.
  - reflexivity.
  - apply H. left. reflexivity.
  - rewrite IHl, IHr; [reflexivity | | ]; intros name Hin; apply H, in_or_app; auto.
  - rewrite IHa; [reflexivity | exact H].
Qed.

Lemma denote_defined (rho : string -> option jit_float64) (e : ExprAST) :
  (forall name, In name (identifiers_of e) -> rho name <> None) ->
  exists r, denote libm rho e = Some r.
Proof.
  induction e as [value | name | op lhs IHl rhs IHr | op arg IHa]; simpl; intro H.
  - eexists. reflexivity.
  - destruct (rho name) as [r | ] eqn:E; [eexists; reflexivity | ].
    exfalso. apply (H name); [left; reflexivity | exact E].
  - destruct IHl as [x Hx]; [intros name Hin; apply H, in_or_app; auto | ].
    destruct IHr as [y Hy]; [intros name Hin; apply H, in_or_app; auto | ].
    rewrite Hx, Hy. eexists. reflexivity.
  - destruct (IHa H) as [x Hx]. rewrite Hx. eexists. reflexivity.
Qed.

End DenoteFacts.

Lemma generate_explicit_defined (slot_of : string -> option nat) (e : ExprAST) :
  (forall name, In name (identifiers_of e) -> slot_of name <> None) ->
  forall f, exists v f', generate_explicit slot_of e f = Some (v, f').
Proof.
  induction e as [value | name | op lhs IHl rhs IHr | op arg IHa]; simpl; intros H f.
  - do 2 eexists. reflexivity.
  - destruct (slot_of name) as [slot | ] eqn:E; [do 2 eexists; reflexivity | ].
    exfalso. apply (H name); [left; reflexivity | exact E].
  - destruct (IHl (fun name Hin => H name (in_or_app _ _ _ (or_introl Hin))) f)
      as (L & f1 & ->).
    destruct (IHr (fun name Hin => H name (in_or_app _ _ _ (or_intror Hin))) f1)
      as (R & f2 & ->).
    do 2 eexists. reflexivity.
  - destruct (IHa H f) as (V & f1 & ->). do 2 eexists. reflexivity.
Qed.

Lemma generate_explicit_undefined (slot_of : string -> option nat) (e : ExprAST) :
  (exists name, In name (identifiers_of e) /\ slot_of name = None) ->
  forall f, generate_explicit slot_of e f = None.
Proof.
  induction e as [value | name | op lhs IHl rhs IHr | op arg IHa]; simpl;
    intros (name' & Hin & Hs) f.
  - contradiction.
  - destruct Hin as [<- | []]. rewrite Hs. reflexivity.
  - apply in_app_or in Hin. destruct Hin as [Hin | Hin].
    + rewrite IHl; [reflexivity | exists name'; auto].
    + destruct (generate_explicit slot_of lhs f) as [[L f1] | ]; [ | reflexivity].
      rewrite IHr; [reflexivity | exists name'; auto].
  - rewrite IHa; [reflexivity | exists name'; auto].
Qed.

(** ** The C++ variant against the explicit generator *)

Section CxxFacts.

Import CxxAPI.

Lemma find_le (ids : list string) (name : string) : find ids name <= length ids.
Proof.
  induction ids as [ | y ids IH]; simpl; [lia | ].
  destruct (String.eqb y name); lia.
Qed.

Lemma find_lt_iff (ids : list string) (name : string) :
  find ids name < length ids <-> In name ids.
Proof.
  induction ids as [ | y ids IH]; simpl.
  - split; [lia | contradiction].
  - destruct (String.eqb_spec y name) as [-> | Hne].
    + split; [auto | lia].
    + rewrite <- IH. split; [intro H; right; lia | intros [H | H]; [contradiction | lia]].
Qed.

Lemma find_nth_error (ids : list string) (name : string) :
  In name ids -> nth_error ids (find ids name) = Some name.
Proof.
  induction ids as [ | y ids IH]; simpl; [contradiction | ].
  destruct (String.eqb_spec y name) as [-> | Hne]; [reflexivity | ].
  intros [H | H]; [contradiction | apply IH; exact H].
Qed.

Lemma find_first (ids : list string) (name : string) (j : nat) :
  j < find ids name -> nth_error ids j <> Some name.
Proof.
  revert j. induction ids as [ | y ids IH]; simpl; intros j Hj; [lia | ].
  destruct (String.eqb_spec y name) as [-> | Hne]; [lia | ].
  destruct j as [ | j]; simpl; [congruence | apply IH; lia].
Qed.

Lemma cxx_slot_env (ids : list string) (args : list jit_float64) (name : string) :
  slot_env (cxx_slot ids) args name = cxx_env ids args name.
Proof.
  unfold slot_env, cxx_slot, cxx_env, distance, cbegin. rewrite Nat.sub_0_r. reflexivity.
Qed.

(** The visitor's state after a node is the explicit generator's result put
    into [func] and [current_result]. *)
Lemma cxx_accept_explicit (node : ExprAST) :
  forall this, exists v f,
    generate_explicit (cxx_slot (identifiers this)) node (func this) = Some (v, f) /\
    accept node this =
      {| func := f; ast := ast this; identifiers := identifiers this; current_result := v |}.
Proof.
  induction node as [value | name | op lhs IHl rhs IHr | op arg IHa]; intro this.
  - do 2 eexists. split; reflexivity.
  - do 2 eexists. split; reflexivity.
  - destruct (IHl this) as (L & f1 & Gl & Al).
    simpl. unfold visit_binary_node. rewrite Gl, Al.
    match goal with |- context [accept rhs ?s] =>
      destruct (IHr s) as (R & f2 & Gr & Ar); rewrite Ar end.
    simpl in Gr. rewrite Gr. simpl.
    do 2 eexists. split; [reflexivity | ].
    destruct op; reflexivity.
  - destruct (IHa this) as (V & f1 & Ga & Aa).
    simpl. unfold visit_unary_node. rewrite Ga, Aa. simpl.
    do 2 eexists. split; [reflexivity | ].
    destruct op; reflexivity.
Qed.

(** The body of a constructed [UserFunction]. *)
Lemma cxx_new_explicit (e : ExprAST) (ids : list string) :
  exists v f,
    generate_explicit (cxx_slot ids) e (jit_function_create (cxx_signature ids))
      = Some (v, f) /\
    func (UserFunction_new e ids) = jit_function_compile (jit_insn_return f v).
Proof.
  unfold UserFunction_new, create, build.
  match goal with |- context [accept ?a ?s] =>
    destruct (cxx_accept_explicit a s) as (v & f & G & A) end.
  simpl in G, A. exists v, f. split; [exact G | ].
  simpl. rewrite A. reflexivity.
Qed.

(** Calling a constructed [UserFunction] is direct arithmetic on its tree. *)
Lemma cxx_call_denote libm (e : ExprAST) (ids : list string) (args : list jit_float64) fr :
  fst (call libm (UserFunction_new e ids) args fr) = denote libm (cxx_env ids args) e.
Proof.
  destruct (cxx_new_explicit e ids) as (v & f & G & F).
  unfold call. rewrite F.
  rewrite (@apply_generated libm (cxx_slot ids) args e _ v f fr G eq_refl).
  apply denote_ext. intros name _. apply cxx_slot_env.
Qed.

Lemma cxx_new_signature (e : ExprAST) (ids : list string) :
  signature (func (UserFunction_new e ids)) =
  {| sig_abi := jit_abi_cdecl; sig_return := jit_type_float64;
     sig_params := repeat jit_type_float64 (length ids) |}.
Proof.
  destruct (cxx_new_explicit e ids) as (v & f & G & F). rewrite F.
  destruct (generate_explicit_sound (fun _ x => x) _ [] e _ G) as (code & _ & S & _).
  simpl. rewrite S. simpl. unfold cxx_signature, jit_type_create_signature.
  rewrite repeat_length, firstn_all2 by (rewrite repeat_length; lia). reflexivity.
Qed.

Lemma cxx_new_compiled (e : ExprAST) (ids : list string) :
  is_compiled (func (UserFunction_new e ids)) = true.
Proof.
  destruct (cxx_new_explicit e ids) as (v & f & G & F). rewrite F. reflexivity.
Qed.

Lemma cxx_new_identifiers (e : ExprAST) (ids : list string) :
  identifiers (UserFunction_new e ids) = ids.
Proof.
  unfold UserFunction_new, create, build.
  match goal with |- context [accept ?a ?s] =>
    destruct (cxx_accept_explicit a s) as (v & f & G & A) end.
  simpl in A. simpl. rewrite A. reflexivity.
Qed.

(** The slot an identifier node asks for is the position [std::find] gives. *)
Lemma cxx_identifier_slot (name : string) (this : UserFunction) :
  current_result (accept (Identifier name) this) = jit_param (find (identifiers this) name).
Proof.
  simpl. unfold get_param, jit_value_get_param, distance, cbegin.
  rewrite Nat.sub_0_r. reflexivity.
Qed.

End CxxFacts.

(** ** The C variant against the explicit generator *)

Section CFacts.

Import CAPI.

Lemma c_find_le (m : unordered_map) (name : string) : find m name <= length m.
Proof.
  induction m as [ | [k x] m IH]; simpl; [lia | ].
  destruct (String.eqb k name); lia.
Qed.

Lemma c_find_lt_iff (m : unordered_map) (name : string) :
  find m name < length m <-> In name (map fst m).
Proof.
  induction m as [ | [k x] m IH]; simpl.
  - split; [lia | contradiction].
  - destruct (String.eqb_spec k name) as [-> | Hne].
    + split; [auto | lia].
    + rewrite <- IH. split; [intro H; right; lia | intros [H | H]; [contradiction | lia]].
Qed.

Lemma c_slot_defined (m : unordered_map) (name : string) :
  c_slot m name <> None <-> In name (map fst m).
Proof.
  rewrite <- c_find_lt_iff. unfold c_slot, end_.
  pose proof (c_find_le m name) as Hle.
  destruct (Nat.eqb_spec (find m name) (length m)) as [E | N].
  - split; [congruence | lia].
  - split; [lia | discriminate].
Qed.

Lemma c_find_lookup (m : unordered_map) (name : string) :
  nth_error (map snd m) (find m name) = lookup m name.
Proof.
  induction m as [ | [k x] m IH]; simpl; [reflexivity | ].
  destruct (String.eqb k name); [reflexivity | exact IH].
Qed.

(** Packing the arguments in the order the slots were taken from: a slot
    holds the value of the entry of its name. *)
Lemma c_slot_env (m : unordered_map) (name : string) :
  slot_env (c_slot m) (map snd m) name = lookup m name.
Proof.
  unfold slot_env, c_slot, end_, distance, begin.
  destruct (Nat.eqb_spec (find m name) (length m)) as [E | N].
  - rewrite <- c_find_lookup, E.
    symmetry. apply nth_error_None. rewrite length_map. lia.
  - rewrite Nat.sub_0_r. apply c_find_lookup.
Qed.

Lemma lookup_In (m : unordered_map) (name : string) (x : jit_float64) :
  NoDup (map fst m) -> (lookup m name = Some x <-> In (name, x) m).
Proof.
  induction m as [ | [k y] m IH]; simpl; intro Hnd.
  - split; [discriminate | contradiction].
  - inversion Hnd as [ | ? ? Hk Hnd']; subst.
    destruct (String.eqb_spec k name) as [-> | Hne].
    + split.
      * intro H. inversion H; subst. left. reflexivity.
      * intros [H | H]; [congruence | ].
        exfalso. apply Hk. apply (in_map fst) in H. exact H.
    + rewrite (IH Hnd'). split; [auto | intros [H | H]; [congruence | exact H]].
Qed.

(** With one entry per key, what a name stands for does not depend on the
    order in which the map iterates. *)
Lemma lookup_permutation (m m' : unordered_map) (name : string) :
  NoDup (map fst m) -> Permutation m m' -> lookup m name = lookup m' name.
Proof.
  intros Hnd Hp.
  assert (Hnd' : NoDup (map fst m'))
    by (apply (Permutation_NoDup (Permutation_map fst Hp)); exact Hnd).
  destruct (lookup m name) as [x | ] eqn:E.
  - apply (lookup_In _ _ _ Hnd) in E. symmetry. apply (lookup_In _ _ _ Hnd').
    apply (Permutation_in _ Hp). exact E.
  - destruct (lookup m' name) as [y | ] eqn:E'; [ | reflexivity].
    apply (lookup_In _ _ _ Hnd') in E'.
    apply (Permutation_in _ (Permutation_sym Hp)) in E'.
    apply (lookup_In _ _ _ Hnd) in E'. congruence.
Qed.

Lemma c_accept_explicit (node : ExprAST) :
  forall this,
    accept node this =
    match generate_explicit (c_slot (identifier_map this)) node (function this) with
    | Some (v, f) =>
        Done {| function := f; identifier_map := identifier_map this; current_result := v |}
    | None => AssertionFailed
    end.
Proof.
  induction node as [value | name | op lhs IHl rhs IHr | op arg IHa]; intro this.
  - reflexivity.
  - simpl. unfold visit_identifier_node, c_slot.
    destruct (Nat.eqb (find (identifier_map this) name) (end_ (identifier_map this)));
      reflexivity.
  - simpl. unfold visit_binary_node. rewrite IHl.
    destruct (generate_explicit _ lhs (function this)) as [[L f1] | ]; [ | reflexivity].
    simpl. rewrite IHr. simpl.
    destruct (generate_explicit _ rhs f1) as [[R f2] | ]; [ | reflexivity].
    simpl. destruct op; reflexivity.
  - simpl. unfold visit_unary_node. rewrite IHa.
    destruct (generate_explicit _ arg (function this)) as [[V f1] | ]; [ | reflexivity].
    simpl. destruct op; reflexivity.
Qed.

Lemma c_compile_and_run_explicit (copy : copy_constructor) libm (e : ExprAST)
    (m : unordered_map) fr :
  compile_and_run copy libm e m fr =
  match generate_explicit (c_slot (copy m)) e (jit_function_create (c_signature m)) with
  | Some (v, f) =>
      Done (jit_function_compile (jit_insn_return f v),
            denote libm (slot_env (c_slot (copy m)) (map snd m)) e)
  | None => AssertionFailed
  end.
Proof.
  unfold compile_and_run, compile. rewrite c_accept_explicit. simpl.
  fold (c_signature m).
  destruct (generate_explicit (c_slot (copy m)) e (jit_function_create (c_signature m)))
    as [[v f] | ] eqn:G; [ | reflexivity].
  simpl. f_equal. f_equal.
  apply (@apply_generated libm (c_slot (copy m)) (map snd m) e _ v f fr G eq_refl).
Qed.

Lemma copy_keys (copy : copy_constructor) (m : unordered_map) (name : string) :
  In name (map fst (copy m)) <-> In name (map fst m).
Proof.
  pose proof (Permutation_map fst (copy_of_entries copy m)) as Hp.
  split; intro H.
  - apply (Permutation_in _ (Permutation_sym Hp)). exact H.
  - apply (Permutation_in _ Hp). exact H.
Qed.

Lemma copy_length (copy : copy_constructor) (m : unordered_map) :
  length (copy m) = length m.
Proof. symmetry. apply Permutation_length. apply copy_of_entries. Qed.

Lemma c_signature_params (m : unordered_map) :
  c_signature m =
  {| sig_abi := jit_abi_cdecl; sig_return := jit_type_float64;
     sig_params := repeat jit_type_float64 (length m) |}.
Proof.
  unfold c_signature, jit_type_create_signature, size.
  rewrite repeat_length, firstn_all2 by (rewrite repeat_length; lia). reflexivity.
Qed.

End CFacts.

(** C1.  The expression of [main] under the binding x, y and the arguments
    (3, 5) must give 17 = 1*2 + 5*3.  The generator does give 17 on the tree
    whose identifier nodes name "y" and "x", which is what the nodes read
    while the temporaries of the first statement are alive.  In [main] as
    written the function is built after that statement has ended: the two
    identifier nodes then refer to strings that are no longer alive, and the
    program has no defined result. *)
Theorem C1_main_reads_destroyed_names :
  forall (libm : unop -> jit_float64 -> jit_float64) (fr : frame),
    read_tree main_temporaries main_ast_ref = Some main_ast /\
    fst (CxxAPI.call libm (CxxAPI.UserFunction_new main_ast ["x"; "y"]%string)
           [3%float; 5%float] fr) = Some 17%float /\
    content (end_of_statement main_temporaries main_temporaries) temporary_y = None /\
    content (end_of_statement main_temporaries main_temporaries) temporary_x = None /\
    cxx_main libm fr = None.
Proof.
  intros libm fr. repeat split.
Qed.

(** The C variant rejects exactly the trees that name a variable the map has
    no entry for. *)
Lemma c_compile_and_run_rejects (copy : CAPI.copy_constructor) libm (e : ExprAST)
    (m : CAPI.unordered_map) fr :
  (exists name, In name (identifiers_of e) /\ ~ In name (map fst m)) ->
  CAPI.compile_and_run copy libm e m fr = CAPI.AssertionFailed.
Proof.
  intros (name & Hin & Hout). rewrite c_compile_and_run_explicit.
  rewrite generate_explicit_undefined; [reflexivity | ].
  exists name. split; [exact Hin | ].
  destruct (c_slot (CAPI.copy_of copy m) name) eqn:E; [ | reflexivity].
  exfalso. apply Hout. apply (copy_keys copy). apply c_slot_defined. congruence.
Qed.

Lemma c_compile_and_run_accepts (copy : CAPI.copy_constructor) libm (e : ExprAST)
    (m : CAPI.unordered_map) fr :
  incl (identifiers_of e) (map fst m) ->
  exists f r,
    CAPI.compile_and_run copy libm e m fr = CAPI.Done (f, Some r) /\
    denote libm (slot_env (c_slot (CAPI.copy_of copy m)) (map snd m)) e = Some r /\
    signature f = c_signature m /\ is_compiled f = true.
Proof.
  intro Hcov. rewrite c_compile_and_run_explicit.
  assert (Hslot : forall name, In name (identifiers_of e) ->
                         c_slot (CAPI.copy_of copy m) name <> None).
  { intros name Hin. apply c_slot_defined. apply (copy_keys copy). apply Hcov. exact Hin. }
  destruct (@generate_explicit_defined (c_slot (CAPI.copy_of copy m)) e Hslot
              (jit_function_create (c_signature m))) as (v & f & G).
  rewrite G.
  destruct (@denote_defined libm (slot_env (c_slot (CAPI.copy_of copy m)) (map snd m)) e)
    as [r Hr].
  { intros name Hin. unfold slot_env.
    pose proof (Hslot name Hin) as Hs.
    destruct (c_slot (CAPI.copy_of copy m) name) as [slot | ] eqn:E; [ | congruence].
    apply nth_error_Some. rewrite length_map, <- (copy_length copy).
    unfold c_slot, CAPI.end_, CAPI.distance, CAPI.begin in E.
    pose proof (c_find_le (CAPI.copy_of copy m) name).
    destruct (Nat.eqb_spec (CAPI.find (CAPI.copy_of copy m) name)
                (length (CAPI.copy_of copy m))); [discriminate | ].
    inversion E. lia. }
  exists (jit_function_compile (jit_insn_return f v)), r.
  rewrite Hr. split; [reflexivity | ]. split; [reflexivity | ].
  destruct (generate_explicit_sound libm _ [] e _ G) as (code & _ & S & _).
  split; [exact S | reflexivity].
Qed.

(** C2.  A tree that names a variable absent from the binding must be
    rejected before anything invocable exists.  The C variant does so: its
    [assert] stops generation.  The C++ variant does not: for the tree
    [Identifier "z"] and the binding x, y, [std::find] returns [cend], the
    slot requested is 2, the size of the binding, and construction ends with
    a finalized two-parameter function whose body returns parameter 2. *)
Theorem C2_absent_identifier_cxx_not_rejected :
  let f := CxxAPI.UserFunction_new (Identifier "z") ["x"; "y"]%string in
  CxxAPI.find ["x"; "y"]%string "z"%string = CxxAPI.cend ["x"; "y"]%string /\
  insns (CxxAPI.func f) = [insn_ret (jit_param 2)] /\
  is_compiled (CxxAPI.func f) = true /\
  jit_type_num_params (signature (CxxAPI.func f)) = 2 /\
  (forall copy libm fr,
     CAPI.compile_and_run copy libm (Identifier "z") CAPI.main_args fr
     = CAPI.AssertionFailed).
Proof.
  cbv zeta. split; [reflexivity | ]. split; [reflexivity | ].
  split; [reflexivity | ]. split; [reflexivity | ].
  intros copy libm fr. apply c_compile_and_run_rejects.
  exists "z"%string. split; [left; reflexivity | ].
  simpl. intros [H | [H | []]]; discriminate H.
Qed.

(** C3.  When every identifier of the tree is bound, compilation succeeds in
    both variants; the function has one float64 parameter per bound name and
    returns float64, and invoking it on as many arguments gives a result. *)
Theorem C3_bound_tree_compiles (e : ExprAST) (ids : list string) (m : CAPI.unordered_map)
    (Hids : incl (identifiers_of e) ids)
    (Hmap : incl (identifiers_of e) (map fst m)) :
  (let f := CxxAPI.func (CxxAPI.UserFunction_new e ids) in
   is_compiled f = true /\
   jit_type_num_params (signature f) = length ids /\
   sig_params (signature f) = repeat jit_type_float64 (length ids) /\
   sig_return (signature f) = jit_type_float64 /\
   forall libm args fr, length args = length ids ->
     exists r, fst (CxxAPI.call libm (CxxAPI.UserFunction_new e ids) args fr) = Some r) /\
  (forall copy libm fr, exists f r,
     CAPI.compile_and_run copy libm e m fr = CAPI.Done (f, Some r) /\
     is_compiled f = true /\
     jit_type_num_params (signature f) = CAPI.size m /\
     sig_params (signature f) = repeat jit_type_float64 (CAPI.size m) /\
     sig_return (signature f) = jit_type_float64).
Proof.
  split.
  - cbv zeta. unfold jit_type_num_params.
    rewrite cxx_new_signature, cxx_new_compiled. simpl.
    rewrite repeat_length. repeat split.
    intros libm args fr Hlen. rewrite cxx_call_denote.
    apply denote_defined. intros name Hin. unfold cxx_env.
    apply nth_error_Some. rewrite Hlen. apply find_lt_iff. apply Hids. exact Hin.
  - intros copy libm fr.
    destruct (@c_compile_and_run_accepts copy libm e m fr Hmap)
      as (f & r & E & _ & S & C).
    exists f, r. unfold jit_type_num_params. rewrite S, c_signature_params. simpl.
    rewrite repeat_length. repeat split; assumption.
Qed.

Lemma C3_bound_tree_compiles_witness :
  (let f := CxxAPI.func (CxxAPI.UserFunction_new main_ast ["x"; "y"]%string) in
   is_compiled f = true /\
   jit_type_num_params (signature f) = 2 /\
   sig_params (signature f) = repeat jit_type_float64 2 /\
   sig_return (signature f) = jit_type_float64 /\
   forall libm args fr, length args = 2 ->
     exists r, fst (CxxAPI.call libm (CxxAPI.UserFunction_new main_ast ["x"; "y"]%string)
                      args fr) = Some r) /\
  (forall copy libm fr, exists f r,
     CAPI.compile_and_run copy libm main_ast CAPI.main_args fr = CAPI.Done (f, Some r) /\
     is_compiled f = true /\
     jit_type_num_params (signature f) = 2 /\
     sig_params (signature f) = repeat jit_type_float64 2 /\
     sig_return (signature f) = jit_type_float64).
Proof.
  apply (@C3_bound_tree_compiles main_ast ["x"; "y"]%string CAPI.main_args).
  - intros name H. simpl in *. tauto.
  - intros name H. simpl in *. tauto.
Defined.

(** Code generation only appends to the body. *)
Lemma cxx_accept_appends (node : ExprAST) (this : CxxAPI.UserFunction) :
  exists code,
    insns (CxxAPI.func (CxxAPI.accept node this)) = insns (CxxAPI.func this) ++ code.
Proof.
  destruct (cxx_accept_explicit node this) as (v & f & G & A). rewrite A. simpl.
  destruct (generate_explicit_sound (fun _ x => x) _ [] node _ G) as (code & E & _).
  exists code. exact E.
Qed.

(** C4.  For a binary node the body receives the code of the left child,
    then the code of the right child, then one instruction that applies the
    operator's primitive to (left handle, right handle), in that order; its
    value is the primitive applied to the value of the left child and the
    value of the right child, and 10 - 4 compiles to 6, not -6. *)
Theorem C4_binary_operand_order (op : BinaryOperator.t) (lhs rhs : ExprAST)
    (this : CxxAPI.UserFunction) :
  (let s1 := CxxAPI.accept lhs this in
   let s2 := CxxAPI.accept rhs s1 in
   let s3 := CxxAPI.accept (BinaryExprAST op lhs rhs) this in
   (exists code_left code_right,
      insns (CxxAPI.func s1) = insns (CxxAPI.func this) ++ code_left /\
      insns (CxxAPI.func s2) = insns (CxxAPI.func s1) ++ code_right /\
      insns (CxxAPI.func s3) =
        insns (CxxAPI.func this) ++ code_left ++ code_right ++
        [insn_binary (binary_primitive op) (length (insns (CxxAPI.func s2)))
           (CxxAPI.current_result s1) (CxxAPI.current_result s2)]) /\
   CxxAPI.current_result s3 = jit_temp (length (insns (CxxAPI.func s2)))) /\
  (forall libm ids args fr,
     fst (CxxAPI.call libm (CxxAPI.UserFunction_new (BinaryExprAST op lhs rhs) ids) args fr) =
     match fst (CxxAPI.call libm (CxxAPI.UserFunction_new lhs ids) args fr),
           fst (CxxAPI.call libm (CxxAPI.UserFunction_new rhs ids) args fr) with
     | Some x, Some y => Some (binop_sem (binary_primitive op) x y)
     | _, _ => None
     end) /\
  (forall libm ids args fr,
     let r := fst (CxxAPI.call libm
                     (CxxAPI.UserFunction_new
                        (BinaryExprAST BinaryOperator.Minus (Number 10) (Number 4)) ids)
                     args fr) in
     r = Some 6%float /\ r <> Some (-6)%float).
Proof.
  split; [ | split].
  - cbv zeta.
    destruct (cxx_accept_appends lhs this) as (cl & El).
    destruct (cxx_accept_appends rhs (CxxAPI.accept lhs this)) as (cr & Er).
    assert (S3 : CxxAPI.accept (BinaryExprAST op lhs rhs) this =
                 CxxAPI.visit_binary_node CxxAPI.accept op lhs rhs this) by reflexivity.
    rewrite S3. unfold CxxAPI.visit_binary_node.
    set (s1 := CxxAPI.accept lhs this) in *.
    set (s2 := CxxAPI.accept rhs s1) in *.
    split.
    + exists cl, cr. split; [exact El | ]. split; [exact Er | ].
      destruct op; simpl; rewrite Er, El, <- !app_assoc; reflexivity.
    + destruct op; reflexivity.
  - intros libm ids args fr. rewrite !cxx_call_denote. reflexivity.
  - intros libm ids args fr. cbv zeta. rewrite cxx_call_denote. simpl.
    split; [reflexivity | ].
    intro H. discriminate H.
Qed.

(** C5.  For two distinct names x and y and a tree over them, the tree
    compiled for the binding x, y and called on (a, b) returns a value, the
    one direct arithmetic gives with x = a and y = b, and compiled for the
    binding y, x and called on (b, a) it returns the same value; in each
    binding a name's slot is its position in the list. *)
Theorem C5_binding_order_swap libm (x y : string) (e : ExprAST) (a b : jit_float64)
    (fr fr' : frame)
    (Hxy : String.eqb x y = false)
    (Hcov : incl (identifiers_of e) [x; y]) :
  (exists r,
     denote libm
       (fun name => if String.eqb x name then Some a
                    else if String.eqb y name then Some b else None) e = Some r /\
     fst (CxxAPI.call libm (CxxAPI.UserFunction_new e [x; y]) [a; b] fr) = Some r /\
     fst (CxxAPI.call libm (CxxAPI.UserFunction_new e [y; x]) [b; a] fr') = Some r) /\
  CxxAPI.current_result
    (CxxAPI.accept (Identifier x) (CxxAPI.UserFunction_new e [x; y])) = jit_param 0 /\
  CxxAPI.current_result
    (CxxAPI.accept (Identifier y) (CxxAPI.UserFunction_new e [x; y])) = jit_param 1 /\
  CxxAPI.current_result
    (CxxAPI.accept (Identifier y) (CxxAPI.UserFunction_new e [y; x])) = jit_param 0 /\
  CxxAPI.current_result
    (CxxAPI.accept (Identifier x) (CxxAPI.UserFunction_new e [y; x])) = jit_param 1.
Proof.
  assert (Hyx : String.eqb y x = false) by (rewrite String.eqb_sym; exact Hxy).
  split.
  - destruct (@denote_defined libm
                (fun name => if String.eqb x name then Some a
                             else if String.eqb y name then Some b else None) e)
      as [r Hr].
    { intros name Hn. destruct (Hcov name Hn) as [<- | [<- | []]].
      - rewrite String.eqb_refl. discriminate.
      - rewrite Hxy, String.eqb_refl. discriminate. }
    exists r. split; [exact Hr | ].
    rewrite !cxx_call_denote, <- Hr.
    split; apply denote_ext; intros name _; unfold cxx_env; simpl;
      destruct (String.eqb_spec x name) as [Ex | Nx];
      destruct (String.eqb_spec y name) as [Ey | Ny]; try reflexivity;
      subst; rewrite String.eqb_refl in Hxy; discriminate.
  - rewrite !cxx_identifier_slot, !cxx_new_identifiers. simpl.
    rewrite !String.eqb_refl, Hxy, Hyx. repeat split.
Qed.

Lemma C5_binding_order_swap_witness :
  (exists r,
     denote (fun _ v => v)
       (fun name => if String.eqb "x" name then Some 3%float
                    else if String.eqb "y" name then Some 5%float else None) main_ast
     = Some r /\
     fst (CxxAPI.call (fun _ v => v) (CxxAPI.UserFunction_new main_ast ["x"; "y"]%string)
            [3%float; 5%float] (fun _ => 0%float)) = Some r /\
     fst (CxxAPI.call (fun _ v => v) (CxxAPI.UserFunction_new main_ast ["y"; "x"]%string)
            [5%float; 3%float] (fun _ => 0%float)) = Some r) /\
  CxxAPI.current_result
    (CxxAPI.accept (Identifier "x")
       (CxxAPI.UserFunction_new main_ast ["x"; "y"]%string)) = jit_param 0 /\
  CxxAPI.current_result
    (CxxAPI.accept (Identifier "y")
       (CxxAPI.UserFunction_new main_ast ["x"; "y"]%string)) = jit_param 1 /\
  CxxAPI.current_result
    (CxxAPI.accept (Identifier "y")
       (CxxAPI.UserFunction_new main_ast ["y"; "x"]%string)) = jit_param 0 /\
  CxxAPI.current_result
    (CxxAPI.accept (Identifier "x")
       (CxxAPI.UserFunction_new main_ast ["y"; "x"]%string)) = jit_param 1.
Proof.
  apply (@C5_binding_order_swap (fun _ v => v) "x"%string "y"%string main_ast
           3%float 5%float (fun _ => 0%float) (fun _ => 0%float)).
  - reflexivity.
  - intros name H. simpl in *. tauto.
Defined.

(** C6.  Division by zero raises nothing: 1/0 compiles to a function that
    returns positive infinity and 0/0 to one that returns a NaN. *)
Theorem C6_division_by_zero libm (ids : list string) (args : list jit_float64) (fr : frame) :
  (exists r,
     fst (CxxAPI.call libm
            (CxxAPI.UserFunction_new
               (BinaryExprAST BinaryOperator.Div (Number 1) (Number 0)) ids) args fr)
     = Some r /\ r = infinity /\ classify r = PInf) /\
  (exists r,
     fst (CxxAPI.call libm
            (CxxAPI.UserFunction_new
               (BinaryExprAST BinaryOperator.Div (Number 0) (Number 0)) ids) args fr)
     = Some r /\ is_nan r = true /\ classify r = NaN).
Proof.
  split; eexists; (split; [rewrite cxx_call_denote; reflexivity | split; reflexivity]).
Qed.

(** C7.  A constructed function is a pure function of its arguments: the
    result of a call does not depend on what earlier invocations left in
    the frame, so a call repeated after any other call returns the same
    float64, and a call gives the same result whether or not another call
    came before it. *)
Theorem C7_call_is_pure libm (e : ExprAST) (ids : list string)
    (args args' : list jit_float64) (fr fr' : frame) :
  let f := CxxAPI.UserFunction_new e ids in
  fst (CxxAPI.call libm f args fr) = fst (CxxAPI.call libm f args fr') /\
  (let fr1 := snd (CxxAPI.call libm f args fr) in
   let fr2 := snd (CxxAPI.call libm f args' fr1) in
   fst (CxxAPI.call libm f args fr1) = fst (CxxAPI.call libm f args fr) /\
   fst (CxxAPI.call libm f args' fr1) = fst (CxxAPI.call libm f args' fr) /\
   fst (CxxAPI.call libm f args fr2) = fst (CxxAPI.call libm f args fr)).
Proof.
  cbv zeta. rewrite !cxx_call_denote. repeat split.
Qed.

(** The handles seen in [current_result] node by node are the handles the
    explicit generator returns node by node. *)
Lemma cxx_handles_explicit (node : ExprAST) :
  forall this,
    handles_accumulated node this =
    handles_explicit (cxx_slot (CxxAPI.identifiers this)) node (CxxAPI.func this).
Proof.
  induction node as [value | name | op lhs IHl rhs IHr | op arg IHa]; intro this.
  - reflexivity.
  - reflexivity.
  - destruct (cxx_accept_explicit (BinaryExprAST op lhs rhs) this) as (v & f3 & G & A).
    destruct (cxx_accept_explicit lhs this) as (L & f1 & Gl & Al).
    cbn [handles_accumulated handles_explicit].
    rewrite G, Gl, A, IHl, Al, IHr. reflexivity.
  - destruct (cxx_accept_explicit (UnaryExprAST op arg) this) as (v & f3 & G & A).
    cbn [handles_accumulated handles_explicit].
    rewrite G, A, IHa. reflexivity.
Qed.

(** C8.  Threading results through [current_result] computes what the
    generator with explicit results computes: after the visit of any tree the
    body and the current handle are the explicit generator's body and
    returned handle, the handle of every node is the same, and [build] returns
    the handle the explicit generator returns for the root, so the finished
    bodies, and with them the results of every call, are the same. *)
Theorem C8_accumulator_matches_explicit (node : ExprAST) (this : CxxAPI.UserFunction) :
  (exists v f,
     generate_explicit (cxx_slot (CxxAPI.identifiers this)) node (CxxAPI.func this)
       = Some (v, f) /\
     CxxAPI.func (CxxAPI.accept node this) = f /\
     CxxAPI.current_result (CxxAPI.accept node this) = v) /\
  handles_accumulated node this =
    handles_explicit (cxx_slot (CxxAPI.identifiers this)) node (CxxAPI.func this) /\
  (exists v f,
     generate_explicit (cxx_slot (CxxAPI.identifiers this)) (CxxAPI.ast this)
       (CxxAPI.func this) = Some (v, f) /\
     CxxAPI.func (CxxAPI.build this) = jit_insn_return f v) /\
  (forall libm ids args fr,
     exists v f,
       generate_explicit (cxx_slot ids) node (jit_function_create (cxx_signature ids))
         = Some (v, f) /\
       CxxAPI.call libm (CxxAPI.UserFunction_new node ids) args fr =
       jit_function_apply libm (jit_function_compile (jit_insn_return f v)) args fr).
Proof.
  split; [ | split; [ | split]].
  - destruct (cxx_accept_explicit node this) as (v & f & G & A).
    exists v, f. rewrite A. repeat split. exact G.
  - apply cxx_handles_explicit.
  - destruct (cxx_accept_explicit (CxxAPI.ast this) this) as (v & f & G & A).
    exists v, f. split; [exact G | ]. unfold CxxAPI.build. rewrite A. reflexivity.
  - intros libm ids args fr.
    destruct (cxx_new_explicit node ids) as (v & f & G & F).
    exists v, f. split; [exact G | ]. unfold CxxAPI.call. rewrite F. reflexivity.
Qed.

(** C9.  When the binding lists a name (once or several times), an
    identifier node of that name gets the first position at which the name
    occurs: the position holds the name, no earlier position does, and a
    call reads the argument at that position. *)
Theorem C9_duplicate_name_first_slot (ids : list string) (name : string)
    (Hin : In name ids) :
  let slot := CxxAPI.find ids name in
  nth_error ids slot = Some name /\
  (forall j, j < slot -> nth_error ids j <> Some name) /\
  (forall e, CxxAPI.current_result
               (CxxAPI.accept (Identifier name) (CxxAPI.UserFunction_new e ids))
             = jit_param slot) /\
  (forall libm args fr,
     fst (CxxAPI.call libm (CxxAPI.UserFunction_new (Identifier name) ids) args fr)
     = nth_error args slot).
Proof.
  cbv zeta. split; [apply find_nth_error; exact Hin | ].
  split; [intros j Hj; apply find_first; exact Hj | ].
  split.
  - intro e. rewrite cxx_identifier_slot, cxx_new_identifiers. reflexivity.
  - intros libm args fr. rewrite cxx_call_denote. reflexivity.
Qed.

Lemma C9_duplicate_name_first_slot_witness :
  let slot := CxxAPI.find ["y"; "x"; "y"; "x"]%string "x"%string in
  nth_error ["y"; "x"; "y"; "x"]%string slot = Some "x"%string /\
  (forall j, j < slot -> nth_error ["y"; "x"; "y"; "x"]%string j <> Some "x"%string) /\
  (forall e, CxxAPI.current_result
               (CxxAPI.accept (Identifier "x")
                  (CxxAPI.UserFunction_new e ["y"; "x"; "y"; "x"]%string))
             = jit_param slot) /\
  (forall libm args fr,
     fst (CxxAPI.call libm
            (CxxAPI.UserFunction_new (Identifier "x") ["y"; "x"; "y"; "x"]%string) args fr)
     = nth_error args slot).
Proof.
  apply (@C9_duplicate_name_first_slot ["y"; "x"; "y"; "x"]%string "x"%string).
  simpl. right. left. reflexivity.
Defined.



(** ** Further properties of the two generators *)

Lemma body_ok_app (a b : list jit_insn) :
  forall k, body_ok k (a ++ b) = body_ok k a && body_ok (k + length a) b.
Proof.
  induction a as [ | i a IH]; intro k; simpl.
  - rewrite Nat.add_0_r. reflexivity.
  - rewrite IH, <- andb_assoc, <- plus_n_Sm. reflexivity.
Qed.

Lemma operand_ok_mono (n m : nat) (v : jit_value_t) :
  n <= m -> operand_ok n v = true -> operand_ok m v = true.
Proof.
  destruct v as [ | c | i | k]; simpl; intros Hle H; try exact H.
  apply Nat.ltb_lt in H. apply Nat.ltb_lt. lia.
Qed.

Lemma body_params_app (a b : list jit_insn) :
  body_params (a ++ b) = body_params a ++ body_params b.
Proof. unfold body_params. apply flat_map_app. Qed.

(** The code the generator appends for a tree: its primitives in post-order,
    every instruction in place, and the parameter slots it reads. *)
Lemma generate_explicit_shape (slot_of : string -> option nat) (e : ExprAST) :
  forall f v f',
    generate_explicit slot_of e f = Some (v, f') ->
    exists code,
      insns f' = insns f ++ code /\
      map insn_opcode code = map Some (postorder e) /\
      body_ok (length (insns f)) code = true /\
      operand_ok (length (insns f')) v = true /\
      (forall i, In i (body_params code ++ value_params v) <->
                 exists name, In name (identifiers_of e) /\ slot_of name = Some i).
Proof.
  induction e as [value | name | op lhs IHl rhs IHr | op arg IHa]; intros f v f' H; simpl in H.
  - inversion H; subst. exists []. rewrite app_nil_r. simpl.
    repeat (split; [reflexivity | ]).
    intro i. split; [contradiction | intros (name & [] & _)].
  - destruct (slot_of name) as [slot | ] eqn:Hs; [ | discriminate].
    inversion H; subst. exists []. rewrite app_nil_r. simpl.
    repeat (split; [reflexivity | ]).
    intro i. split.
    + intros [<- | []]. exists name. split; [left; reflexivity | exact Hs].
    + intros (name' & [<- | []] & Hs'). left. congruence.
  - destruct (generate_explicit slot_of lhs f) as [[L f1] | ] eqn:Hl; [ | discriminate].
    destruct (generate_explicit slot_of rhs f1) as [[R f2] | ] eqn:Hr; [ | discriminate].
    destruct (IHl _ _ _ Hl) as (cl & El & Ol & Bl & Vl & Pl).
    destruct (IHr _ _ _ Hr) as (cr & Er & Or & Br & Vr & Pr).
    unfold emit_binary in H. inversion H; subst v f'; clear H. simpl.
    exists (cl ++ cr ++ [insn_binary (binary_primitive op) (length (insns f2)) L R]).
    assert (Hlen1 : length (insns f1) = length (insns f) + length cl)
      by (rewrite El, length_app; reflexivity).
    assert (Hlen2 : length (insns f2) = length (insns f1) + length cr)
      by (rewrite Er, length_app; reflexivity).
    split; [rewrite Er, El, <- !app_assoc; reflexivity | ].
    split; [rewrite !map_app, Ol, Or; reflexivity | ].
    split.
    { rewrite !body_ok_app, <- Hlen1, <- Hlen2, Bl, Br. simpl.
      unfold insn_ok. simpl.
      rewrite (operand_ok_mono L (n:=length (insns f1)) (m:=length (insns f2))), Vr,
        Nat.eqb_refl; [reflexivity | lia | exact Vl]. }
    split; [rewrite length_app; simpl; apply Nat.ltb_lt; lia | ].
    intro i. rewrite app_nil_r, !body_params_app. simpl. rewrite !app_nil_r.
    specialize (Pl i). specialize (Pr i). rewrite in_app_iff in Pl, Pr.
    rewrite !in_app_iff. split.
    + intros [Hi | [Hi | [Hi | Hi]]].
      * destruct (proj1 Pl (or_introl Hi)) as (n & Hn & Hs).
        exists n. split; [apply in_or_app; left; exact Hn | exact Hs].
      * destruct (proj1 Pr (or_introl Hi)) as (n & Hn & Hs).
        exists n. split; [apply in_or_app; right; exact Hn | exact Hs].
      * destruct (proj1 Pl (or_intror Hi)) as (n & Hn & Hs).
        exists n. split; [apply in_or_app; left; exact Hn | exact Hs].
      * destruct (proj1 Pr (or_intror Hi)) as (n & Hn & Hs).
        exists n. split; [apply in_or_app; right; exact Hn | exact Hs].
    + intros (n & Hn & Hs). apply in_app_or in Hn. destruct Hn as [Hn | Hn].
      * destruct (proj2 Pl (ex_intro _ n (conj Hn Hs))) as [Hi | Hi]; auto.
      * destruct (proj2 Pr (ex_intro _ n (conj Hn Hs))) as [Hi | Hi]; auto.
  - destruct (generate_explicit slot_of arg f) as [[V f1] | ] eqn:Ha; [ | discriminate].
    destruct (IHa _ _ _ Ha) as (ca & Ea & Oa & Ba & Va & Pa).
    unfold emit_unary in H. inversion H; subst v f'; clear H. simpl.
    exists (ca ++ [insn_unary (unary_primitive op) (length (insns f1)) V]).
    assert (Hlen1 : length (insns f1) = length (insns f) + length ca)
      by (rewrite Ea, length_app; reflexivity).
    split; [rewrite Ea, <- app_assoc; reflexivity | ].
    split; [rewrite !map_app, Oa; reflexivity | ].
    split.
    { rewrite body_ok_app, <- Hlen1, Ba. simpl. unfold insn_ok. simpl.
      rewrite Va, Nat.eqb_refl. reflexivity. }
    split; [rewrite length_app; simpl; apply Nat.ltb_lt; lia | ].
    intro i. rewrite app_nil_r, body_params_app. simpl. rewrite !app_nil_r.
    exact (Pa i).
Qed.

(** The body of a constructed [UserFunction]: the code of the tree, then the
    return of the root's handle. *)
Lemma cxx_new_body (e : ExprAST) (ids : list string) :
  exists code v,
    insns (CxxAPI.func (CxxAPI.UserFunction_new e ids)) = code ++ [insn_ret v] /\
    map insn_opcode code = map Some (postorder e) /\
    body_ok 0 code = true /\
    operand_ok (length code) v = true /\
    (forall i, In i (body_params code ++ value_params v) <->
               exists name, In name (identifiers_of e) /\ CxxAPI.find ids name = i).
Proof.
  destruct (cxx_new_explicit e ids) as (v & f & G & F).
  destruct (generate_explicit_shape _ _ _ G) as (code & E & O & B & V & P).
  simpl in E, B. rewrite E in V.
  exists code, v. rewrite F. simpl. rewrite E.
  split; [reflexivity | ]. split; [exact O | ]. split; [exact B | ]. split; [exact V | ].
  intro i. rewrite (P i). unfold cxx_slot, CxxAPI.distance, CxxAPI.cbegin.
  split; intros (name & Hn & Hs); exists name; (split; [exact Hn | ]).
  - rewrite Nat.sub_0_r in Hs. congruence.
  - rewrite Nat.sub_0_r. congruence.
Qed.

Lemma denote_defined_inv libm (rho : string -> option jit_float64) (e : ExprAST) :
  denote libm rho e <> None ->
  forall name, In name (identifiers_of e) -> rho name <> None.
Proof.
  induction e as [value | name | op lhs IHl rhs IHr | op arg IHa]; simpl; intros H n Hn.
  - contradiction.
  - destruct Hn as [<- | []]. exact H.
  - destruct (denote libm rho lhs) as [x | ] eqn:El; [ | congruence].
    destruct (denote libm rho rhs) as [y | ] eqn:Er; [ | congruence].
    apply in_app_or in Hn. destruct Hn as [Hn | Hn].
    + apply IHl; [discriminate | exact Hn].
    + apply IHr; [discriminate | exact Hn].
  - destruct (denote libm rho arg) as [x | ] eqn:Ea; [ | congruence].
    apply IHa; [discriminate | exact Hn].
Qed.

Lemma generate_explicit_ext (s1 s2 : string -> option nat) (e : ExprAST) :
  (forall name, In name (identifiers_of e) -> s1 name = s2 name) ->
  forall f, generate_explicit s1 e f = generate_explicit s2 e f.
Proof.
  induction e as [value | name | op lhs IHl rhs IHr | op arg IHa]; simpl; intros H f.
  - reflexivity.
  - rewrite (H name); [reflexivity | left; reflexivity].
  - rewrite IHl by (intros n Hn; apply H, in_or_app; auto).
    destruct (generate_explicit s2 lhs f) as [[L f1] | ]; [ | reflexivity].
    rewrite IHr by (intros n Hn; apply H, in_or_app; auto). reflexivity.
  - rewrite IHa by exact H. reflexivity.
Qed.

Lemma c_find_map_fst (m : CAPI.unordered_map) (name : string) :
  CAPI.find m name = CxxAPI.find (map fst m) name.
Proof.
  induction m as [ | [k x] m IH]; simpl; [reflexivity | ].
  rewrite IH. reflexivity.
Qed.

Lemma not_incl_witness (l l' : list string) :
  ~ incl l l' -> exists x, In x l /\ ~ In x l'.
Proof.
  induction l as [ | a l IH]; intro H.
  - exfalso. apply H. intros x [].
  - destruct (in_dec string_dec a l') as [Ha | Ha].
    + destruct IH as (x & Hx & Hout).
      * intro Hincl. apply H. intros x [<- | Hx]; [exact Ha | apply Hincl; exact Hx].
      * exists x. split; [right; exact Hx | exact Hout].
    + exists a. split; [left; reflexivity | exact Ha].
Qed.

Lemma find_app (ids more : list string) (name : string) :
  In name ids -> CxxAPI.find (ids ++ more) name = CxxAPI.find ids name.
Proof.
  induction ids as [ | y ids IH]; simpl; [contradiction | ].
  destruct (String.eqb_spec y name) as [-> | Hne]; [reflexivity | ].
  intros [H | H]; [contradiction | rewrite IH; [reflexivity | exact H]].
Qed.

Lemma map_fst_combine (ids : list string) :
  forall args : list jit_float64,
    length args = length ids -> map fst (combine ids args) = ids.
Proof.
  induction ids as [ | y ids IH]; intros [ | a args] H; simpl in *; try discriminate.
  - reflexivity.
  - rewrite IH; [reflexivity | lia].
Qed.

(** With as many arguments as names, a name stands for the argument paired
    with its first occurrence. *)
Lemma cxx_env_combine (ids : list string) (name : string) :
  forall args : list jit_float64,
    length args = length ids ->
    cxx_env ids args name = lookup (combine ids args) name.
Proof.
  unfold cxx_env.
  induction ids as [ | y ids IH]; intros [ | a args] H; simpl in *; try discriminate.
  - reflexivity.
  - destruct (String.eqb y name); [reflexivity | apply IH; lia].
Qed.

Lemma cxx_accept_keeps (node : ExprAST) (this : CxxAPI.UserFunction) :
  CxxAPI.ast (CxxAPI.accept node this) = CxxAPI.ast this /\
  CxxAPI.identifiers (CxxAPI.accept node this) = CxxAPI.identifiers this /\
  signature (CxxAPI.func (CxxAPI.accept node this)) = signature (CxxAPI.func this) /\
  is_compiled (CxxAPI.func (CxxAPI.accept node this)) = is_compiled (CxxAPI.func this).
Proof.
  destruct (cxx_accept_explicit node this) as (v & f & G & A). rewrite A. simpl.
  destruct (generate_explicit_sound (fun _ x => x) _ [] node _ G) as (code & _ & S & C & _).
  repeat split; assumption.
Qed.

Lemma c_accept_keeps (node : ExprAST) (this this' : CAPI.CodegenVisitor) :
  CAPI.accept node this = CAPI.Done this' ->
  CAPI.identifier_map this' = CAPI.identifier_map this /\
  signature (CAPI.function this') = signature (CAPI.function this) /\
  is_compiled (CAPI.function this') = is_compiled (CAPI.function this).
Proof.
  rewrite c_accept_explicit.
  destruct (generate_explicit _ node (CAPI.function this)) as [[v f] | ] eqn:G;
    [ | discriminate].
  intro H. inversion H; subst this'. simpl.
  destruct (generate_explicit_sound (fun _ x => x) _ [] node _ G) as (code & _ & S & C & _).
  repeat split; assumption.
Qed.

(** X1.  Calling a constructed function is direct arithmetic on its tree,
    each identifier standing for the argument at the position [std::find]
    gives; when direct arithmetic has no value (an identifier's position lies
    outside the argument vector), the call has no result. *)
Theorem X1_call_is_direct_arithmetic libm (e : ExprAST) (ids : list string)
    (args : list jit_float64) (fr : frame) :
  fst (CxxAPI.call libm (CxxAPI.UserFunction_new e ids) args fr) =
  denote libm (fun name => nth_error args (CxxAPI.find ids name)) e.
Proof.
  rewrite cxx_call_denote. reflexivity.
Qed.

(** X2.  For a unary node the body receives the code of the operand, then
    one instruction that applies the operator's primitive to the operand's
    handle; its value is the math function applied to the operand's value. *)
Theorem X2_unary_node_code (op : UnaryOperator.t) (arg : ExprAST)
    (this : CxxAPI.UserFunction) :
  (let s1 := CxxAPI.accept arg this in
   let s2 := CxxAPI.accept (UnaryExprAST op arg) this in
   (exists code,
      insns (CxxAPI.func s1) = insns (CxxAPI.func this) ++ code /\
      insns (CxxAPI.func s2) =
        insns (CxxAPI.func this) ++ code ++
        [insn_unary (unary_primitive op) (length (insns (CxxAPI.func s1)))
           (CxxAPI.current_result s1)]) /\
   CxxAPI.current_result s2 = jit_temp (length (insns (CxxAPI.func s1)))) /\
  (forall libm ids args fr,
     fst (CxxAPI.call libm (CxxAPI.UserFunction_new (UnaryExprAST op arg) ids) args fr) =
     option_map (libm (unary_primitive op))
       (fst (CxxAPI.call libm (CxxAPI.UserFunction_new arg ids) args fr))).
Proof.
  split.
  - cbv zeta.
    destruct (cxx_accept_appends arg this) as (ca & Ea).
    assert (S2 : CxxAPI.accept (UnaryExprAST op arg) this =
                 CxxAPI.visit_unary_node CxxAPI.accept op arg this) by reflexivity.
    rewrite S2. unfold CxxAPI.visit_unary_node.
    set (s1 := CxxAPI.accept arg this) in *.
    split.
    + exists ca. split; [exact Ea | ].
      destruct op; simpl; rewrite Ea, <- !app_assoc; reflexivity.
    + destruct op; reflexivity.
  - intros libm ids args fr. rewrite !cxx_call_denote. simpl.
    destruct (denote libm (cxx_env ids args) arg); reflexivity.
Qed.

(** X3.  Called on one argument per bound name, a function has a result
    exactly when every identifier of its tree is in the binding. *)
Theorem X3_call_defined_iff libm (e : ExprAST) (ids : list string)
    (args : list jit_float64) (fr : frame)
    (Hlen : length args = length ids) :
  fst (CxxAPI.call libm (CxxAPI.UserFunction_new e ids) args fr) <> None <->
  incl (identifiers_of e) ids.
Proof.
  rewrite cxx_call_denote. split.
  - intros H name Hn. apply find_lt_iff. rewrite <- Hlen. apply nth_error_Some.
    exact (denote_defined_inv libm _ e H name Hn).
  - intro H. destruct (@denote_defined libm (cxx_env ids args) e) as [r Hr].
    + intros name Hn. apply nth_error_Some. rewrite Hlen. apply find_lt_iff.
      apply H. exact Hn.
    + rewrite Hr. discriminate.
Qed.

Lemma X3_call_defined_iff_witness :
  fst (CxxAPI.call (fun _ v => v) (CxxAPI.UserFunction_new main_ast ["x"; "y"]%string)
         [3%float; 5%float] (fun _ => 0%float)) <> None <->
  incl (identifiers_of main_ast) ["x"; "y"]%string.
Proof.
  apply (@X3_call_defined_iff (fun _ v => v) main_ast ["x"; "y"]%string
           [3%float; 5%float] (fun _ => 0%float)).
  reflexivity.
Defined.

(** X4.  For a tree whose identifiers are all in the binding, called on one
    argument per bound name, the call returns a value that depends only on
    the arguments at the positions of the tree's identifiers: an argument
    vector with the same values at those positions, whatever it holds
    elsewhere or beyond the last bound name, returns the same value. *)
Theorem X4_call_reads_only_its_slots libm (e : ExprAST) (ids : list string)
    (args args' : list jit_float64) (fr fr' : frame)
    (Hcov : incl (identifiers_of e) ids)
    (Hlen : length args = length ids)
    (Hsame : forall name, In name (identifiers_of e) ->
               nth_error args' (CxxAPI.find ids name) =
               nth_error args (CxxAPI.find ids name)) :
  exists r,
    fst (CxxAPI.call libm (CxxAPI.UserFunction_new e ids) args fr) = Some r /\
    fst (CxxAPI.call libm (CxxAPI.UserFunction_new e ids) args' fr') = Some r.
Proof.
  destruct (@denote_defined libm (cxx_env ids args) e) as [r Hr].
  { intros name Hn. apply nth_error_Some. rewrite Hlen. apply find_lt_iff.
    apply Hcov. exact Hn. }
  exists r. rewrite !cxx_call_denote. split; [exact Hr | ].
  rewrite <- Hr. apply denote_ext. exact Hsame.
Qed.

Lemma X4_call_reads_only_its_slots_witness :
  exists r,
    fst (CxxAPI.call (fun _ v => v)
           (CxxAPI.UserFunction_new (Identifier "x") ["x"; "y"]%string)
           [3%float; 5%float] (fun _ => 0%float)) = Some r /\
    fst (CxxAPI.call (fun _ v => v)
           (CxxAPI.UserFunction_new (Identifier "x") ["x"; "y"]%string)
           [3%float; 8%float; 99%float] (fun _ => 1%float)) = Some r.
Proof.
  apply (@X4_call_reads_only_its_slots (fun _ v => v) (Identifier "x")
           ["x"; "y"]%string [3%float; 5%float] [3%float; 8%float; 99%float]
           (fun _ => 0%float) (fun _ => 1%float)).
  - intros name H. simpl in *. tauto.
  - reflexivity.
  - intros name H. simpl in H. destruct H as [<- | []]. reflexivity.
Defined.

(** X5.  For a name that is not in the binding the identifier node asks for
    the parameter at position [identifiers.size()], one past the last bound
    name; a call with no more arguments than bound names then has no
    result. *)
Theorem X5_absent_name_slot libm (e : ExprAST) (ids : list string) (name : string)
    (args : list jit_float64) (fr : frame)
    (Hout : ~ In name ids)
    (Hlen : length args <= length ids) :
  CxxAPI.current_result
    (CxxAPI.accept (Identifier name) (CxxAPI.UserFunction_new e ids))
  = jit_param (length ids) /\
  fst (CxxAPI.call libm (CxxAPI.UserFunction_new (Identifier name) ids) args fr) = None.
Proof.
  assert (Hfind : CxxAPI.find ids name = length ids).
  { pose proof (find_le ids name) as Hle.
    pose proof (find_lt_iff ids name) as Hiff.
    destruct (Nat.eq_dec (CxxAPI.find ids name) (length ids)) as [E | N]; [exact E | ].
    exfalso. apply Hout. apply Hiff. lia. }
  split.
  - rewrite cxx_identifier_slot, cxx_new_identifiers, Hfind. reflexivity.
  - rewrite cxx_call_denote. simpl. unfold cxx_env. rewrite Hfind.
    apply nth_error_None. exact Hlen.
Qed.

Lemma X5_absent_name_slot_witness :
  CxxAPI.current_result
    (CxxAPI.accept (Identifier "z") (CxxAPI.UserFunction_new main_ast ["x"; "y"]%string))
  = jit_param (length ["x"; "y"]%string) /\
  fst (CxxAPI.call (fun _ v => v) (CxxAPI.UserFunction_new (Identifier "z") ["x"; "y"]%string)
         [3%float; 5%float] (fun _ => 0%float)) = None.
Proof.
  apply (@X5_absent_name_slot (fun _ v => v) main_ast ["x"; "y"]%string "z"%string
           [3%float; 5%float] (fun _ => 0%float)).
  - simpl. intros [H | [H | []]]; discriminate H.
  - simpl. lia.
Defined.

(** X6.  The body of a constructed function holds one instruction per
    operator node of the tree, in post-order (operand before operator, left
    before right), followed by a single return; number and identifier nodes
    add no instruction. *)
Theorem X6_body_is_postorder (e : ExprAST) (ids : list string) :
  map insn_opcode (insns (CxxAPI.func (CxxAPI.UserFunction_new e ids))) =
    map Some (postorder e) ++ [None] /\
  length (insns (CxxAPI.func (CxxAPI.UserFunction_new e ids))) = S (length (postorder e)).
Proof.
  destruct (cxx_new_body e ids) as (code & v & E & O & _).
  rewrite E. split.
  - rewrite map_app, O. reflexivity.
  - rewrite length_app, <- (length_map insn_opcode code), O, length_map. simpl. lia.
Qed.

(** X7.  In the body of a constructed function the instruction at position
    k writes destination k and reads only constants, parameters and
    destinations of earlier instructions; no operand is the null handle. *)
Theorem X7_body_well_formed (e : ExprAST) (ids : list string) :
  body_ok 0 (insns (CxxAPI.func (CxxAPI.UserFunction_new e ids))) = true.
Proof.
  destruct (cxx_new_body e ids) as (code & v & E & _ & B & V & _).
  rewrite E, body_ok_app, B. simpl. unfold insn_ok. simpl. rewrite V. reflexivity.
Qed.

(** X8.  Generation never touches what it was configured with: visiting any
    tree leaves the tree reference, the binding, the signature and the
    finalization flag as they were, in both variants (in the C variant,
    whenever the visit is not stopped by the assertion). *)
Theorem X8_generation_keeps_binding (node : ExprAST) :
  (forall this,
     CxxAPI.ast (CxxAPI.accept node this) = CxxAPI.ast this /\
     CxxAPI.identifiers (CxxAPI.accept node this) = CxxAPI.identifiers this /\
     signature (CxxAPI.func (CxxAPI.accept node this)) = signature (CxxAPI.func this) /\
     is_compiled (CxxAPI.func (CxxAPI.accept node this)) = is_compiled (CxxAPI.func this)) /\
  (forall this this',
     CAPI.accept node this = CAPI.Done this' ->
     CAPI.identifier_map this' = CAPI.identifier_map this /\
     signature (CAPI.function this') = signature (CAPI.function this) /\
     is_compiled (CAPI.function this') = is_compiled (CAPI.function this)).
Proof.
  split.
  - intro this. apply cxx_accept_keeps.
  - intros this this'. apply c_accept_keeps.
Qed.

(** X9.  The two variants are the same compiler: for a map that covers the
    tree, whose copy iterates as the map does, [compile_and_run] builds the
    function the C++ variant builds for the keys in iteration order, and
    prints what that function returns on the values in iteration order. *)
Theorem X9_variants_agree libm (e : ExprAST) (m : CAPI.unordered_map) (fr : frame)
    (Hcov : incl (identifiers_of e) (map fst m)) :
  CAPI.compile_and_run CAPI.copy_same_order libm e m fr =
  CAPI.Done
    (CxxAPI.func (CxxAPI.UserFunction_new e (map fst m)),
     fst (CxxAPI.call libm (CxxAPI.UserFunction_new e (map fst m)) (map snd m) fr)).
Proof.
  rewrite c_compile_and_run_explicit, cxx_call_denote.
  destruct (cxx_new_explicit e (map fst m)) as (v & f & G & F). rewrite F.
  assert (Hsig : c_signature m = cxx_signature (map fst m)).
  { unfold c_signature, cxx_signature, CAPI.size. rewrite length_map. reflexivity. }
  simpl CAPI.copy_of. rewrite Hsig.
  rewrite (@generate_explicit_ext (c_slot m) (cxx_slot (map fst m)) e), G.
  - do 2 f_equal. apply denote_ext. intros name _.
    rewrite c_slot_env. unfold cxx_env.
    rewrite <- c_find_map_fst, c_find_lookup. reflexivity.
  - intros name Hn. unfold c_slot, cxx_slot, CAPI.end_, CAPI.distance, CAPI.begin,
      CxxAPI.distance, CxxAPI.cbegin.
    pose proof (proj2 (c_find_lt_iff m name) (Hcov name Hn)) as Hlt.
    destruct (Nat.eqb_spec (CAPI.find m name) (length m)); [lia | ].
    rewrite c_find_map_fst. reflexivity.
Qed.

Lemma X9_variants_agree_witness :
  CAPI.compile_and_run CAPI.copy_same_order (fun _ v => v) main_ast CAPI.main_args
    (fun _ => 0%float) =
  CAPI.Done
    (CxxAPI.func (CxxAPI.UserFunction_new main_ast (map fst CAPI.main_args)),
     fst (CxxAPI.call (fun _ v => v)
            (CxxAPI.UserFunction_new main_ast (map fst CAPI.main_args))
            (map snd CAPI.main_args) (fun _ => 0%float))).
Proof.
  apply (@X9_variants_agree (fun _ v => v) main_ast CAPI.main_args (fun _ => 0%float)).
  intros name H. simpl in *. tauto.
Defined.

(** X10.  [compile_and_run] is stopped by the assertion exactly when the tree
    names a variable the map has no entry for, whatever the order of the map
    and of its copy. *)
Theorem X10_c_rejects_iff (copy : CAPI.copy_constructor) libm (e : ExprAST)
    (m : CAPI.unordered_map) (fr : frame) :
  CAPI.compile_and_run copy libm e m fr = CAPI.AssertionFailed <->
  exists name, In name (identifiers_of e) /\ ~ In name (map fst m).
Proof.
  split.
  - intro H. apply not_incl_witness. intro Hcov.
    destruct (@c_compile_and_run_accepts copy libm e m fr Hcov) as (f & r & E & _).
    congruence.
  - apply c_compile_and_run_rejects.
Qed.

(** X11.  Whatever order the visitor's copy of the map iterates in, what
    [compile_and_run] prints is direct arithmetic in which a name stands for
    the caller's value at the position the name has in the copy. *)
Theorem X11_c_result_any_copy (copy : CAPI.copy_constructor) libm (e : ExprAST)
    (m : CAPI.unordered_map) (fr : frame) :
  match CAPI.compile_and_run copy libm e m fr with
  | CAPI.Done (f, r) =>
      r = denote libm
            (fun name => nth_error (map snd m) (CAPI.find (CAPI.copy_of copy m) name)) e
  | CAPI.AssertionFailed => True
  end.
Proof.
  rewrite c_compile_and_run_explicit.
  destruct (generate_explicit _ e _) as [[v f] | ]; [ | exact I].
  apply denote_ext. intros name _.
  unfold slot_env, c_slot, CAPI.end_, CAPI.distance, CAPI.begin.
  destruct (Nat.eqb_spec (CAPI.find (CAPI.copy_of copy m) name)
              (length (CAPI.copy_of copy m))) as [E | N].
  - symmetry. apply nth_error_None.
    rewrite length_map, E, (copy_length copy). lia.
  - rewrite Nat.sub_0_r. reflexivity.
Qed.

(** X12.  The parameter slots the body reads are exactly the positions of
    the tree's identifiers in the binding; all of them lie inside the
    signature exactly when every identifier of the tree is bound. *)
Theorem X12_params_within_signature (e : ExprAST) (ids : list string) :
  let f := CxxAPI.func (CxxAPI.UserFunction_new e ids) in
  (forall i, In i (body_params (insns f)) <->
             exists name, In name (identifiers_of e) /\ CxxAPI.find ids name = i) /\
  ((forall i, In i (body_params (insns f)) -> i < jit_type_num_params (signature f)) <->
   incl (identifiers_of e) ids).
Proof.
  cbv zeta.
  assert (P : forall i,
             In i (body_params (insns (CxxAPI.func (CxxAPI.UserFunction_new e ids)))) <->
             exists name, In name (identifiers_of e) /\ CxxAPI.find ids name = i).
  { destruct (cxx_new_body e ids) as (code & v & E & _ & _ & _ & P).
    intro i. rewrite E, body_params_app. simpl. rewrite !app_nil_r. apply P. }
  split; [exact P | ].
  unfold jit_type_num_params. rewrite cxx_new_signature. simpl. rewrite repeat_length.
  split.
  - intros H name Hn. apply find_lt_iff. apply H. apply P. exists name. auto.
  - intros Hcov i Hi. apply P in Hi. destruct Hi as (name & Hn & <-).
    apply find_lt_iff. apply Hcov. exact Hn.
Qed.

(** X13.  A tree without identifiers needs no arguments: it compiles under
    every binding and every map, and every call returns the same value. *)
Theorem X13_closed_tree libm (e : ExprAST) (Hclosed : identifiers_of e = []) :
  exists r,
    (forall ids args fr,
       fst (CxxAPI.call libm (CxxAPI.UserFunction_new e ids) args fr) = Some r) /\
    (forall copy m fr, exists f,
       CAPI.compile_and_run copy libm e m fr = CAPI.Done (f, Some r)).
Proof.
  destruct (@denote_defined libm (fun _ => None) e) as [r Hr].
  { rewrite Hclosed. intros name []. }
  assert (Hany : forall rho, denote libm rho e = Some r).
  { intro rho. rewrite <- Hr. apply denote_ext. rewrite Hclosed. intros name []. }
  exists r. split.
  - intros ids args fr. rewrite cxx_call_denote. apply Hany.
  - intros copy m fr.
    destruct (@c_compile_and_run_accepts copy libm e m fr) as (f & r' & E & D & _).
    { rewrite Hclosed. intros name []. }
    exists f. rewrite E. rewrite (Hany _) in D. congruence.
Qed.

Lemma X13_closed_tree_witness :
  exists r,
    (forall ids args fr,
       fst (CxxAPI.call (fun _ v => v)
              (CxxAPI.UserFunction_new
                 (UnaryExprAST UnaryOperator.Sqrt (Mult (Number 1) (Number 2))) ids)
              args fr) = Some r) /\
    (forall copy m fr, exists f,
       CAPI.compile_and_run copy (fun _ v => v)
         (UnaryExprAST UnaryOperator.Sqrt (Mult (Number 1) (Number 2))) m fr
       = CAPI.Done (f, Some r)).
Proof.
  apply (@X13_closed_tree (fun _ v => v)
           (UnaryExprAST UnaryOperator.Sqrt (Mult (Number 1) (Number 2)))).
  reflexivity.
Defined.

(** X14.  Names appended to the binding do not move the names already
    bound: for a tree bound by the shorter binding, called on as many
    arguments, appending names and arguments gives the same result. *)
Theorem X14_binding_extension libm (e : ExprAST) (ids more : list string)
    (args more_args : list jit_float64) (fr fr' : frame)
    (Hcov : incl (identifiers_of e) ids)
    (Hlen : length args = length ids) :
  fst (CxxAPI.call libm (CxxAPI.UserFunction_new e (ids ++ more)) (args ++ more_args) fr) =
  fst (CxxAPI.call libm (CxxAPI.UserFunction_new e ids) args fr').
Proof.
  rewrite !cxx_call_denote. apply denote_ext. intros name Hn. unfold cxx_env.
  rewrite (find_app ids more name (Hcov name Hn)).
  apply nth_error_app1. rewrite Hlen. apply find_lt_iff. apply Hcov. exact Hn.
Qed.

Lemma X14_binding_extension_witness :
  fst (CxxAPI.call (fun _ v => v)
         (CxxAPI.UserFunction_new main_ast (["x"%string; "y"%string] ++ ["z"%string]))
         ([3%float; 5%float] ++ [7%float]) (fun _ => 0%float)) =
  fst (CxxAPI.call (fun _ v => v) (CxxAPI.UserFunction_new main_ast ["x"; "y"]%string)
         [3%float; 5%float] (fun _ => 1%float)).
Proof.
  apply (@X14_binding_extension (fun _ v => v) main_ast ["x"; "y"]%string ["z"]%string
           [3%float; 5%float] [7%float] (fun _ => 0%float) (fun _ => 1%float)).
  - intros name H. simpl in *. tauto.
  - reflexivity.
Defined.

(** X15.  Any reordering of a duplicate-free binding, with the arguments
    reordered the same way, gives the same result: what counts is which
    argument is paired with which name. *)
Theorem X15_binding_permutation libm (e : ExprAST) (ids ids' : list string)
    (args args' : list jit_float64) (fr fr' : frame)
    (Hnd : NoDup ids)
    (Hlen : length args = length ids)
    (Hlen' : length args' = length ids')
    (Hperm : Permutation (combine ids args) (combine ids' args')) :
  fst (CxxAPI.call libm (CxxAPI.UserFunction_new e ids) args fr) =
  fst (CxxAPI.call libm (CxxAPI.UserFunction_new e ids') args' fr').
Proof.
  rewrite !cxx_call_denote. apply denote_ext. intros name _.
  rewrite (cxx_env_combine ids name args Hlen), (cxx_env_combine ids' name args' Hlen').
  apply lookup_permutation; [ | exact Hperm].
  rewrite (map_fst_combine ids args Hlen). exact Hnd.
Qed.

Lemma X15_binding_permutation_witness :
  fst (CxxAPI.call (fun _ v => v)
         (CxxAPI.UserFunction_new main_ast ["x"; "y"; "z"]%string)
         [3%float; 5%float; 7%float] (fun _ => 0%float)) =
  fst (CxxAPI.call (fun _ v => v)
         (CxxAPI.UserFunction_new main_ast ["y"; "z"; "x"]%string)
         [5%float; 7%float; 3%float] (fun _ => 1%float)).
Proof.
  apply (@X15_binding_permutation (fun _ v => v) main_ast
           ["x"; "y"; "z"]%string ["y"; "z"; "x"]%string
           [3%float; 5%float; 7%float] [5%float; 7%float; 3%float]
           (fun _ => 0%float) (fun _ => 1%float)).
  - repeat constructor; simpl; intuition discriminate.
  - reflexivity.
  - reflexivity.
  - simpl.
    apply (Permutation_cons_append
             [("y"%string, 5%float); ("z"%string, 7%float)] ("x"%string, 3%float)).
Defined.
